(** * Devika: execution-state log, message log, coordinator and archiver

    A shallow embedding of [src/state.py], [src/project.py], the routes of
    [devika.py] that start runs, [src/documenter/pdf.py] and
    [src/filesystem/read_code.py], with the properties of the specification
    stated over it.

    Conventions of the embedding.
    - A Python value that travels through [json.dumps]/[json.loads] is a
      [json] term.  Dictionaries have string keys and are compared by
      contents, as Python does, so they are finite maps.  Floating point
      numbers are left out.
    - The two text columns [state_stack_json] and [message_stack_json] hold
      the decoded document: every writer stores [json.dumps] of a list and
      every reader applies [json.loads] to it.
    - A Python exception is a [Raise] result.  A method that raises inside
      [with Session(...)] never reaches [commit], so the tables are the ones
      before the call.
    - [datetime.now()] is an argument of the functions that read the clock.
    - A path is a Python [str]; [os.path] and [os.walk] are modelled on
      POSIX, on a directory tree without symbolic links.
    - A call of a library or of the operating system whose outcome the
      program does not determine ([str.lower] beyond ASCII, [markdown],
      [pisa.CreatePDF], opening, writing and closing a file) is an argument
      of the function that makes it: the value it returns or the exception
      it raises. *)

From stdpp Require Import gmap strings list fin_maps.
From Stdlib Require Import ZArith Ascii.

Set Warnings "-register-all".

(** ** Python values *)

Inductive json : Type :=
  | JNull
  | JBool (b : bool)
  | JInt (n : Z)
  | JStr (s : string)
  | JList (l : list json)
  | JDict (d : gmap string json).

Inductive pyerr : Type :=
  | IndexError
  | KeyError
  | TypeError
  | ValueError
  | OSError
  | Exception (msg : string).

Inductive result (A : Type) : Type :=
  | Ok (a : A)
  | Raise (e : pyerr).
Arguments Ok {A} a.
Arguments Raise {A} e.

#[global] Instance result_ret : MRet result := λ A a, Ok a.
#[global] Instance result_bind : MBind result := λ A B f m,
  match m with
  | Ok a => f a
  | Raise e => Raise e
  end.

Definition raises {A : Type} (r : result A) : Prop :=
  match r with
  | Ok _ => False
  | Raise _ => True
  end.

(** Truth value of an object in a condition. *)
Definition truthy (v : json) : bool :=
  match v with
  | JNull => false
  | JBool b => b
  | JInt n => negb (n =? 0)%Z
  | JStr s => negb (String.eqb s "")
  | JList l => match l with [] => false | _ => true end
  | JDict d => negb (bool_decide (d = ∅))
  end.

(** [l[-1]]. *)
Definition last_item (l : list json) : result json :=
  match last l with
  | Some x => Ok x
  | None => Raise IndexError
  end.

(** [l[-1] = x]. *)
Definition set_last_item (l : list json) (x : json) : result (list json) :=
  match l with
  | [] => Raise IndexError
  | _ => Ok (<[pred (length l) := x]> l)
  end.

(** [v[key]] for a string key. *)
Definition getitem (v : json) (key : string) : result json :=
  match v with
  | JDict d =>
      match d !! key with
      | Some x => Ok x
      | None => Raise KeyError
      end
  | _ => Raise TypeError
  end.

(** [v[key] = x] for a string key; the object [v] after the store. *)
Definition setitem (v : json) (key : string) (x : json) : result json :=
  match v with
  | JDict d => Ok (JDict (<[key := x]> d))
  | _ => Raise TypeError
  end.

(** [v + k] for an [int] k, the sum that [v += k] stores. *)
Definition add_int (v : json) (k : Z) : result json :=
  match v with
  | JInt n => Ok (JInt (n + k))
  | JBool b => Ok (JInt ((if b then 1 else 0) + k))
  | _ => Raise TypeError
  end.

(** The reading of a dictionary's field, [None] where there is none. *)
Definition field (v : json) (key : string) : option json :=
  match v with
  | JDict d => d !! key
  | _ => None
  end.


(** [s.lower()] on a [str] of ASCII characters: the letters [A] to [Z]
    become [a] to [z] and the other characters stay.  On other strings
    [str.lower] follows the Unicode case mapping; the functions that call it
    take it as their argument [lower]. *)
Definition lower_char (c : ascii) : ascii :=
  let n := nat_of_ascii c in
  if (65 <=? n) && (n <=? 90) then ascii_of_nat (n + 32) else c.

Fixpoint ascii_lower (s : string) : string :=
  match s with
  | EmptyString => EmptyString
  | String c rest => String (lower_char c) (ascii_lower rest)
  end.

(** [s.isascii()]. *)
Fixpoint isascii (s : string) : bool :=
  match s with
  | EmptyString => true
  | String c rest => (nat_of_ascii c <? 128) && isascii rest
  end.

(** ['\0' in s]: the paths that the calls of the operating system refuse
    with [ValueError: embedded null byte]. *)
Fixpoint has_nul (s : string) : bool :=
  match s with
  | EmptyString => false
  | String c rest => bool_decide (c = "000"%char) || has_nul rest
  end.

(** [s.replace(" ", "-")]. *)
Fixpoint replace_space_hyphen (s : string) : string :=
  match s with
  | EmptyString => EmptyString
  | String c rest =>
      String (if bool_decide (c = " "%char) then "-"%char else c)
        (replace_space_hyphen rest)
  end.

(** A loop whose body may raise: the results in order, or the first
    exception. *)
Fixpoint collect {A B : Type} (f : A → result B) (l : list A)
    : result (list B) :=
  match l with
  | [] => Ok []
  | a :: rest => b ← f a; bs ← collect f rest; Ok (b :: bs)
  end.


(** A loop whose body may raise, with what it has done when it stops: the
    results of the rounds that returned, in order, and the exception that
    ended it, if one did. *)
Fixpoint run_loop {A B : Type} (f : A → result B) (l : list A)
    : list B * option pyerr :=
  match l with
  | [] => ([], None)
  | a :: rest =>
      match f a with
      | Ok b => let (bs, raised) := run_loop f rest in (b :: bs, raised)
      | Raise e => ([], Some e)
      end
  end.

(** [v[0]]. *)
Definition getindex0 (v : json) : result json :=
  match v with
  | JList l =>
      match l with
      | x :: _ => Ok x
      | [] => Raise IndexError
      end
  | JStr s =>
      match s with
      | String c _ => Ok (JStr (String c EmptyString))
      | EmptyString => Raise IndexError
      end
  | JDict _ => Raise KeyError
  | _ => Raise TypeError
  end.

(** [v == s] for a [str] s. *)
Definition eq_str (v : json) (s : string) : bool :=
  match v with
  | JStr s' => bool_decide (s' = s)
  | _ => false
  end.
(** ** [os.path] on POSIX *)

Module Posixpath.

Definition sep : ascii := "/"%char.

Definition startswith_sep (s : string) : bool :=
  match s with
  | String c _ => bool_decide (c = sep)
  | EmptyString => false
  end.

Fixpoint endswith_sep (s : string) : bool :=
  match s with
  | EmptyString => false
  | String c EmptyString => bool_decide (c = sep)
  | String _ rest => endswith_sep rest
  end.

(** [os.path.join(a, b)]. *)
Definition join (a b : string) : string :=
  if startswith_sep b then b
  else if bool_decide (a = "") || endswith_sep a then a +:+ b
  else a +:+ "/" +:+ b.

(** [os.path.join(first, *rest)]. *)
Definition join_all (first : string) (rest : list string) : string :=
  foldl join first rest.

(** [s.split("/")]. *)
Fixpoint split_sep (s : string) : list string :=
  match s with
  | EmptyString => [EmptyString]
  | String c rest =>
      if bool_decide (c = sep) then EmptyString :: split_sep rest
      else
        match split_sep rest with
        | comp :: comps => String c comp :: comps
        | [] => [String c EmptyString]
        end
  end.

(** One round of the loop of [normpath] on a path with an initial slash:
    [comps] is [new_comps] with its last element first. *)
Definition norm_step (comps : list string) (comp : string) : list string :=
  if bool_decide (comp = "") || bool_decide (comp = ".") then comps
  else if bool_decide (comp = "..") then tail comps
  else comp :: comps.

(** [new_comps] after the loop of [normpath], last element first. *)
Definition stack (path : string) : list string :=
  foldl norm_step [] (split_sep path).

(** [[x for x in abspath(path).split(sep) if x]], the components of the
    normalised absolute path; [cwd] is [os.getcwd()], an absolute path. *)
Definition abs_components (cwd path : string) : list string :=
  reverse (stack (join cwd path)).

(** [len(commonprefix([l1, l2]))] on two lists of components. *)
Fixpoint common_prefix_length (l1 l2 : list string) : nat :=
  match l1, l2 with
  | x :: l1', y :: l2' =>
      if bool_decide (x = y) then S (common_prefix_length l1' l2') else 0
  | _, _ => 0
  end.

(** [os.path.relpath(path, start)]. *)
Definition relpath (cwd path start : string) : result string :=
  if bool_decide (path = "") then Raise ValueError
  else
    let start_list := abs_components cwd start in
    let path_list := abs_components cwd path in
    let i := common_prefix_length start_list path_list in
    let rel_list := replicate (length start_list - i) ".." ++ drop i path_list in
    match rel_list with
    | [] => Ok "."
    | comp :: comps => Ok (join_all comp comps)
    end.

(** A string without a separator. *)
Definition sepless (s : string) : Prop := split_sep s = [s].

(** A string that names one entry of a directory. *)
Definition component (s : string) : Prop :=
  sepless s ∧ s ≠ "" ∧ s ≠ "." ∧ s ≠ "..".

(** What [join] puts before a second part that is relative. *)
Definition dir_prefix (a : string) : string :=
  if bool_decide (a = "") || endswith_sep a then a else a +:+ "/".

End Posixpath.

(** ** The directory tree and [os.walk] *)

Module FileSystem.

(** What the operating system answers when a file is opened for writing,
    and when it is closed as the [with] block of the file is left. *)
Record with_open : Type := {
  opened : result ();
  closed : result ()
}.

(** What the calls that the program makes on a file of the tree do:
    [read_text] is [open(path, 'r')] followed by [read()], the text or the
    exception of either; [zip_written] is [zipf.write(path, arcname)], the
    bytes that it stores in the archive or the exception that it raises (the
    file cannot be examined or read, its time stamp is before 1980, the
    archive cannot be written to). *)
Record on_disk : Type := {
  read_text : result string;
  zip_written : result string
}.

(** What a path of the tree names: a file, or a directory with its entries
    in the order of [os.scandir]. *)
Inductive node : Type :=
  | File (calls : on_disk)
  | Dir (entries : list (string * node)).

Definition dirnames (entries : list (string * node)) : list string :=
  flat_map (λ e, match e.2 with Dir _ => [e.1] | File _ => [] end) entries.

(** The names of the files of a directory, each with what the calls on the
    file do. *)
Definition filenames (entries : list (string * node))
    : list (string * on_disk) :=
  flat_map (λ e, match e.2 with File c => [(e.1, c)] | Dir _ => [] end)
    entries.

(** What [os.walk(top)] yields with [n] at [top], top-down: the triples
    [(root, dirs, files)] in the order they are yielded.  A [top] that is
    no directory yields nothing. *)
Fixpoint walk (top : string) (n : node)
    : list (string * list string * list (string * on_disk)) :=
  match n with
  | File _ => []
  | Dir entries =>
      (top, dirnames entries, filenames entries) ::
      flat_map (λ e, walk (Posixpath.join top e.1) e.2) entries
  end.

(** [for root, dirs, files in os.walk(top)]: the triples the loop goes
    through.  [os.walk] hands [top] to [os.scandir] when the loop asks for
    the first triple; for a path with a null byte [os.scandir] raises
    [ValueError], which [os.walk] does not catch. *)
Definition os_walk (top : string) (n : node)
    : result (list (string * list string * list (string * on_disk))) :=
  if has_nul top then Raise ValueError else Ok (walk top n).

(** The pairs of [root] and [file] that the loop [for file in files] inside
    the loop over the triples goes through, in order. *)
Definition walk_files
    (steps : list (string * list string * list (string * on_disk)))
    : list (string * (string * on_disk)) :=
  flat_map (λ step, map (λ file, (step.1.1, file)) step.2) steps.







(** A file whose text and whose bytes are [content], with a time stamp that
    [zipfile] accepts. *)
Definition plain (content : string) : on_disk :=
  {| read_text := Ok content; zip_written := Ok content |}.

(** A file that cannot be opened. *)
Definition locked : on_disk :=
  {| read_text := Raise OSError; zip_written := Raise OSError |}.

(** A readable file whose time stamp is before 1980. *)
Definition stamped_before_1980 (content : string) : on_disk :=
  {| read_text := Ok content; zip_written := Raise ValueError |}.

End FileSystem.
(** ** [src/state.py] *)

Module AgentState.

(** A row of the table [agent_state].  The primary key [id] is the row's
    identity; here that is the row's place in the table, which is the
    order of insertion and the order in which a scan returns the rows. *)
Record AgentStateModel : Type := {
  project : string;
  state_stack_json : list json
}.

Definition table : Type := list AgentStateModel.

(** [session.query(AgentStateModel).filter(AgentStateModel.project ==
    project).first()]: the place and the contents of the first row of the
    project. *)
Definition first (t : table) (p : string) : option (nat * AgentStateModel) :=
  list_find (λ r, project r = p) t.

(** Assigning [agent_state.state_stack_json] on the row found and
    committing. *)
Definition commit_stack (t : table) (i : nat) (r : AgentStateModel)
    (stack : list json) : table :=
  <[i := {| project := project r; state_stack_json := stack |}]> t.

(** [session.add(AgentStateModel(project=..., state_stack_json=...))] and
    commit. *)
Definition add_row (t : table) (p : string) (stack : list json) : table :=
  t ++ [{| project := p; state_stack_json := stack |}].

Definition new_state (timestamp : string) : json :=
  JDict (list_to_map [
    ("internal_monologue", JNull);
    ("browser_session",
       JDict (list_to_map [("url", JNull); ("screenshot", JNull)]));
    ("terminal_session",
       JDict (list_to_map [("command", JNull); ("output", JNull);
                           ("title", JNull)]));
    ("step", JNull);
    ("message", JNull);
    ("completed", JBool false);
    ("agent_is_active", JBool true);
    ("token_usage", JInt 0);
    ("timestamp", JStr timestamp)]).

Definition delete_state (t : table) (p : string) : table :=
  match first t p with
  | Some (i, _) => delete i t
  | None => t
  end.

Definition add_to_current_state (t : table) (p : string) (state : json)
    : result table :=
  match first t p with
  | Some (i, r) =>
      let state_stack := state_stack_json r ++ [state] in
      Ok (commit_stack t i r state_stack)
  | None => Ok (add_row t p [state])
  end.

Definition get_current_state (t : table) (p : string)
    : option (list json) :=
  match first t p with
  | Some (_, r) => Some (state_stack_json r)
  | None => None
  end.

Definition update_latest_state (t : table) (p : string) (state : json)
    : result table :=
  match first t p with
  | Some (i, r) =>
      state_stack ← set_last_item (state_stack_json r) state;
      Ok (commit_stack t i r state_stack)
  | None => Ok (add_row t p [state])
  end.

(** [None] is [JNull]. *)
Definition get_latest_state (t : table) (p : string) : result json :=
  match first t p with
  | Some (_, r) => last_item (state_stack_json r)
  | None => Ok JNull
  end.

(** [state_stack[-1][key] = x] on a decoded stack. *)
Definition patch_last (stack : list json) (key : string) (x : json)
    : result (list json) :=
  top ← last_item stack;
  top' ← setitem top key x;
  set_last_item stack top'.

Definition set_agent_active (now : string) (t : table) (p : string)
    (is_active : bool) : result table :=
  match first t p with
  | Some (i, r) =>
      state_stack ← patch_last (state_stack_json r) "agent_is_active"
                      (JBool is_active);
      Ok (commit_stack t i r state_stack)
  | None =>
      state_stack ← patch_last [new_state now] "agent_is_active"
                      (JBool is_active);
      Ok (add_row t p state_stack)
  end.

Definition is_agent_active (t : table) (p : string) : result json :=
  match first t p with
  | Some (_, r) =>
      top ← last_item (state_stack_json r);
      getitem top "agent_is_active"
  | None => Ok JNull
  end.

Definition set_agent_completed (now : string) (t : table) (p : string)
    (is_completed : bool) : result table :=
  match first t p with
  | Some (i, r) =>
      state_stack ← patch_last (state_stack_json r) "completed"
                      (JBool is_completed);
      Ok (commit_stack t i r state_stack)
  | None =>
      state_stack ← patch_last [new_state now] "completed"
                      (JBool is_completed);
      Ok (add_row t p state_stack)
  end.

Definition is_agent_completed (t : table) (p : string) : result json :=
  match first t p with
  | Some (_, r) =>
      top ← last_item (state_stack_json r);
      getitem top "completed"
  | None => Ok JNull
  end.

Definition update_token_usage (now : string) (t : table) (p : string)
    (token_usage : Z) : result table :=
  match first t p with
  | Some (i, r) =>
      top ← last_item (state_stack_json r);
      old ← getitem top "token_usage";
      new ← add_int old token_usage;
      state_stack ← patch_last (state_stack_json r) "token_usage" new;
      Ok (commit_stack t i r state_stack)
  | None =>
      state_stack ← patch_last [new_state now] "token_usage"
                      (JInt token_usage);
      Ok (add_row t p state_stack)
  end.

Definition get_latest_token_usage (t : table) (p : string) : result json :=
  match first t p with
  | Some (_, r) =>
      top ← last_item (state_stack_json r);
      getitem top "token_usage"
  | None => Ok (JInt 0)
  end.

End AgentState.

(** ** [src/project.py]: the message log *)

Module ProjectManager.

(** A row of the table [projects]; the primary key is the row's place, as
    for [agent_state]. *)
Record Projects : Type := {
  project : string;
  message_stack_json : list json
}.

Definition table : Type := list Projects.

Definition first (t : table) (p : string) : option (nat * Projects) :=
  list_find (λ r, project r = p) t.

Definition new_message (timestamp : string) : json :=
  JDict (list_to_map [
    ("from_devika", JBool true);
    ("message", JNull);
    ("timestamp", JStr timestamp)]).

Definition create_project (t : table) (p : string) : result table :=
  Ok (t ++ [{| project := p; message_stack_json := [] |}]).

Definition delete_project (t : table) (p : string) : table :=
  match first t p with
  | Some (i, _) => delete i t
  | None => t
  end.

Definition add_message_to_project (t : table) (p : string) (message : json)
    : result table :=
  match first t p with
  | Some (i, r) =>
      let message_stack := message_stack_json r ++ [message] in
      Ok (<[i := {| project := project r;
                    message_stack_json := message_stack |}]> t)
  | None =>
      Ok (t ++ [{| project := p; message_stack_json := [message] |}])
  end.

Definition add_message_from_devika (now : string) (t : table) (p : string)
    (message : json) : result table :=
  new_message ← setitem (new_message now) "message" message;
  add_message_to_project t p new_message.

Definition add_message_from_user (now : string) (t : table) (p : string)
    (message : json) : result table :=
  new_message ← setitem (new_message now) "message" message;
  new_message ← setitem new_message "from_devika" (JBool false);
  add_message_to_project t p new_message.

(** [None] when the project has no row. *)
Definition get_messages (t : table) (p : string) : option (list json) :=
  match first t p with
  | Some (_, r) => Some (message_stack_json r)
  | None => None
  end.

Definition validate_last_message_is_from_user (t : table) (p : string)
    : result bool :=
  match first t p with
  | Some (_, r) =>
      match last (message_stack_json r) with
      | Some m => v ← getitem m "from_devika"; Ok (negb (truthy v))
      | None => Ok false
      end
  | None => Ok false
  end.


(** The appends of a run of calls, stopping at the first one that raises. *)
Fixpoint add_messages (t : table) (p : string) (messages : list json)
    : result table :=
  match messages with
  | [] => Ok t
  | m :: rest => t' ← add_message_to_project t p m; add_messages t' p rest
  end.

(** The loop [for message in reversed(message_stack)] that returns the
    first message whose [from_devika] passes [test]; [None] at its end. *)
Fixpoint latest_where (test : json → bool) (reversed : list json)
    : result (option json) :=
  match reversed with
  | [] => Ok None
  | message :: rest =>
      from_devika ← getitem message "from_devika";
      if test from_devika then Ok (Some message)
      else latest_where test rest
  end.

Definition get_latest_message_from_user (t : table) (p : string)
    : result (option json) :=
  match first t p with
  | Some (_, r) =>
      latest_where (λ v, negb (truthy v)) (reverse (message_stack_json r))
  | None => Ok None
  end.

Definition get_latest_message_from_devika (t : table) (p : string)
    : result (option json) :=
  match first t p with
  | Some (_, r) => latest_where truthy (reverse (message_stack_json r))
  | None => Ok None
  end.

(** One round of the loop of [get_all_messages_formatted]; [str] is the
    conversion that the f-string applies to the message. *)
Definition format_message (str : json → string) (message : json)
    : result string :=
  from_devika ← getitem message "from_devika";
  text ← getitem message "message";
  Ok ((if truthy from_devika then "Devika: " else "User: ") +:+ str text).

Definition get_all_messages_formatted (str : json → string) (t : table)
    (p : string) : result (list string) :=
  match first t p with
  | Some (_, r) => collect (format_message str) (message_stack_json r)
  | None => Ok []
  end.

(** [self.project_path] is [project_path], and [lower] is [str.lower]. *)
Definition get_project_path (lower : string → string)
    (project_path project : string) : string :=
  Posixpath.join project_path (replace_space_hyphen (lower project)).

(** One round of the inner loop of [project_to_zip]: the name and the
    contents of the entry that [zipf.write] adds, or the exception of
    [relpath] or of [zipf.write].  [zipfile] stores the [arcname]
    normalised, which a result of [relpath] already is. *)
Definition zip_write (cwd project_path root : string)
    (file : string * FileSystem.on_disk) : result (string * string) :=
  relative_path ← Posixpath.relpath cwd (Posixpath.join root file.1)
                    (Posixpath.join project_path "..");
  data ← FileSystem.zip_written file.2;
  Ok (relative_path, data).

(** The file at [zip_path] after the call: none where
    [zipfile.ZipFile(zip_path, 'w', ...)] raised; an archive with the
    entries written, in order, where it was closed, also when the loop was
    left by an exception; those entries without the closing records of the
    archive where closing it raised. *)
Inductive archive : Type :=
  | NotCreated
  | Written (entries : list (string * string))
  | Unfinished (entries : list (string * string)).

(** The archive lies in the directory that is walked or below it. *)
Definition archive_inside (cwd project_path zip_path : string) : bool :=
  bool_decide (Posixpath.abs_components cwd project_path
               `prefix_of` Posixpath.abs_components cwd zip_path).

(** The archive left and the outcome of the call.  [tree] is the directory
    at the project's path before the call, [cwd] the working directory and
    [io] what opening and closing the archive do.  An exception inside the
    [with] block closes the archive before it goes on to the caller; an
    exception of closing it takes its place.

    Where the archive lies inside the directory that is walked, [os.walk]
    meets the archive while it is written: that case is outside the model,
    which answers [None]. *)
Definition project_to_zip (lower : string → string)
    (cwd project_path project : string) (io : FileSystem.with_open)
    (tree : FileSystem.node) : option (archive * result string) :=
  let project_path := get_project_path lower project_path project in
  let zip_path := project_path +:+ ".zip" in
  if archive_inside cwd project_path zip_path then None
  else Some
    match FileSystem.opened io with
    | Raise e => (NotCreated, Raise e)
    | Ok _ =>
        let (entries, raised) :=
          match FileSystem.os_walk project_path tree with
          | Raise e => ([], Some e)
          | Ok steps =>
              run_loop (λ item, zip_write cwd project_path item.1 item.2)
                (FileSystem.walk_files steps)
          end in
        match FileSystem.closed io, raised with
        | Raise e, _ => (Unfinished entries, Raise e)
        | Ok _, Some e => (Written entries, Raise e)
        | Ok _, None => (Written entries, Ok zip_path)
        end
    end.

Definition get_zip_path (lower : string → string)
    (project_path project : string) : string :=
  get_project_path lower project_path project +:+ ".zip".

End ProjectManager.
(** ** [devika.py]: the routes that start runs *)

Module Devika.

(** The target of a started [Thread]. *)
Inductive task : Type :=
  | Execute (base_model : json) (prompt : json) (project_name : string)
  | SubsequentExecute (base_model : json) (message : json)
      (project_name : string).

(** The two tables and the threads started so far, oldest first. *)
Record world : Type := {
  projects : ProjectManager.table;
  agent_state : AgentState.table;
  threads : list task
}.

Definition response (text : string) : json :=
  JDict {[ "message" := JStr text ]}.

Definition create_project (w : world) (project_name : string)
    : world * result json :=
  match ProjectManager.create_project (projects w) project_name with
  | Ok t =>
      ({| projects := t; agent_state := agent_state w;
          threads := threads w |},
       Ok (response "Project created"))
  | Raise e => (w, Raise e)
  end.

Definition execute_agent (w : world) (prompt base_model : json)
    (project_name : string) : world * result json :=
  if truthy base_model then
    ({| projects := projects w; agent_state := agent_state w;
        threads := threads w ++ [Execute base_model prompt project_name] |},
     Ok (response "Started Devika Agent"))
  else
    (w, Ok (JDict {[ "error" := JStr "base_model is required" ]})).

(** The message is committed before the completion flag is read: a failure
    of the read leaves the message in the log. *)
Definition send_message (now : string) (w : world) (message : json)
    (project_name : string) (base_model : json) : world * result json :=
  match
    (new_message ← setitem (ProjectManager.new_message now) "message"
                     message;
     new_message ← setitem new_message "from_devika" (JBool false);
     ProjectManager.add_message_to_project (projects w) project_name
       new_message)
  with
  | Raise e => (w, Raise e)
  | Ok t =>
      let w1 := {| projects := t; agent_state := agent_state w;
                   threads := threads w |} in
      match AgentState.is_agent_completed (agent_state w) project_name with
      | Raise e => (w1, Raise e)
      | Ok completed =>
          if truthy completed then
            ({| projects := t; agent_state := agent_state w;
                threads := threads w ++
                  [SubsequentExecute base_model message project_name] |},
             Ok (response "Message sent"))
          else (w1, Ok (response "Message sent"))
      end
  end.

Definition get_messages (w : world) (project_name : string) : json :=
  JDict {[ "messages" :=
    match ProjectManager.get_messages (projects w) project_name with
    | Some messages => JList messages
    | None => JNull
    end ]}.

Definition is_agent_active (w : world) (project_name : string)
    : result json :=
  is_active ← AgentState.is_agent_active (agent_state w) project_name;
  Ok (JDict {[ "is_active" := is_active ]}).

Definition get_agent_state (w : world) (project_name : string)
    : result json :=
  agent_state ← AgentState.get_latest_state (agent_state w) project_name;
  Ok (JDict {[ "state" := agent_state ]}).

Definition token_usage (w : world) (project_name : string) : result json :=
  token_count ← AgentState.get_latest_token_usage (agent_state w)
                  project_name;
  Ok (JDict {[ "token_usage" := token_count ]}).

Definition get_browser_session (w : world) (project_name : string)
    : result json :=
  agent_state ← AgentState.get_latest_state (agent_state w) project_name;
  if negb (truthy agent_state) then Ok (JDict {[ "session" := JNull ]})
  else
    browser_session ← getitem agent_state "browser_session";
    Ok (JDict {[ "session" := browser_session ]}).

Definition get_terminal_session (w : world) (project_name : string)
    : result json :=
  agent_state ← AgentState.get_latest_state (agent_state w) project_name;
  if negb (truthy agent_state) then Ok (JDict {[ "terminal_state" := JNull ]})
  else
    terminal_state ← getitem agent_state "terminal_session";
    Ok (JDict {[ "terminal_state" := terminal_state ]}).

(** The message that [send_message] appends. *)
Definition user_message (now : string) (message : json) : json :=
  JDict (<["from_devika" := JBool false]>
           (<["message" := message]>
              (list_to_map [("from_devika", JBool true);
                            ("message", JNull);
                            ("timestamp", JStr now)]))).

End Devika.
(** ** [src/filesystem/read_code.py] *)

Module ReadCode.

Record ReadCode : Type := { directory_path : string }.

(** [ReadCode(project_name)], with [config.get_projects_dir()]; [lower] is
    [str.lower]. *)
Definition init (lower : string → string) (projects_dir project_name : string)
    : ReadCode :=
  {| directory_path :=
       Posixpath.join projects_dir
         (replace_space_hyphen (lower project_name)) |}.

Definition file_entry (file_path code : string) : json :=
  JDict (list_to_map [("filename", JStr file_path); ("code", JStr code)]).

(** The body of the inner loop: [try: ... except: pass]. *)
Definition read_file (root : string) (file : string * FileSystem.on_disk)
    : list json :=
  let file_path := Posixpath.join root file.1 in
  match FileSystem.read_text file.2 with
  | Ok code => [file_entry file_path code]
  | Raise _ => []
  end.

(** [tree] is the directory at [self.directory_path].  The loop over
    [os.walk] is outside the [try]. *)
Definition read_directory (self : ReadCode) (tree : FileSystem.node)
    : result (list json) :=
  steps ← FileSystem.os_walk (directory_path self) tree;
  Ok (flat_map (λ step, flat_map (read_file step.1.1) step.2) steps).


End ReadCode.

(** ** [src/documenter/pdf.py] *)

Module PDF.

(** The object returned by [pisa.CreatePDF]; [err] counts the errors. *)
Record pisa_status : Type := { err : Z }.

Section Converter.

(** [markdown.markdown]: the HTML, or the exception it raises. *)
Variable markdown : string → result string.
(** [pisa.CreatePDF(html, dest=out_file)]: the status it returns, or the
    exception it raises. *)
Variable CreatePDF : string → result pisa_status.

(** The file that the call created or emptied, if any, and the outcome of
    the call.  [pdf_path] is [self.pdf_path] and [io] what
    [open(out_file_path, "wb")] and leaving its [with] block do: an
    exception of [pisa.CreatePDF] closes the file before it goes on to the
    caller, and an exception of closing the file takes its place. *)
Definition markdown_to_pdf (io : FileSystem.with_open)
    (pdf_path markdown_string project_name : string)
    : option string * result string :=
  match markdown markdown_string with
  | Raise e => (None, Raise e)
  | Ok html_string =>
      let out_file_path :=
        Posixpath.join pdf_path (project_name +:+ ".pdf") in
      match FileSystem.opened io with
      | Raise e => (None, Raise e)
      | Ok _ =>
          (Some out_file_path,
           match CreatePDF html_string, FileSystem.closed io with
           | _, Raise e => Raise e
           | Raise e, Ok _ => Raise e
           | Ok pisa_status, Ok _ =>
               if truthy (JInt (err pisa_status))
               then Raise (Exception "Error generating PDF")
               else Ok out_file_path
           end)
      end
  end.

End Converter.

End PDF.

(** ** [src/browser/browser.py] *)

Module Browser.

(** The lines of [screenshot] that fill in [new_state]: the stores go
    through to the dictionary inside [new_state]. *)
Definition screenshot_state (now page_url path_to_save : string)
    : result json :=
  let new_state := AgentState.new_state now in
  new_state ← setitem new_state "internal_monologue"
                (JStr "Browsing the web right now...");
  browser_session ← getitem new_state "browser_session";
  browser_session ← setitem browser_session "url" (JStr page_url);
  new_state ← setitem new_state "browser_session" browser_session;
  browser_session ← getitem new_state "browser_session";
  browser_session ← setitem browser_session "screenshot" (JStr path_to_save);
  setitem new_state "browser_session" browser_session.

(** [page_url] is the address that the page reports, [random_filename] is
    [os.urandom(20).hex()] and [screenshots_save_path] is
    [Config().get_screenshots_dir()]; the table after the call and the path
    returned. *)
Definition screenshot (now screenshots_save_path page_url
    random_filename : string) (t : AgentState.table) (project_name : string)
    : result (AgentState.table * string) :=
  let filename_to_save := random_filename +:+ ".png" in
  let path_to_save := Posixpath.join screenshots_save_path filename_to_save in
  new_state ← screenshot_state now page_url path_to_save;
  t' ← AgentState.add_to_current_state t project_name new_state;
  Ok (t', path_to_save).

End Browser.

(** ** [src/browser/search.py] *)

Module BingSearch.

Record BingSearch : Type := { query_result : json }.

Definition init : BingSearch := {| query_result := JNull |}.

(** [response] is the outcome of the three calls inside [try]:
    [requests.get], [raise_for_status] and [response.json()].  The object
    after the call and what the call returns, which is the JSON document
    or the exception caught. *)
Definition search (self : BingSearch) (response : result json)
    : BingSearch * (json + pyerr) :=
  match response with
  | Ok document => ({| query_result := document |}, inl document)
  | Raise err => (self, inr err)
  end.

Definition get_first_link (self : BingSearch) : result json :=
  web_pages ← getitem (query_result self) "webPages";
  value ← getitem web_pages "value";
  first ← getindex0 value;
  getitem first "url".

End BingSearch.

(** ** [src/config.py] *)

Module Config.

(** [self.config] is the dictionary that [Config()] loaded from
    [config.toml]: the class keeps one object, and every [Config()] loads the
    file into it again.  [os.environ] is a map of strings. *)
Abbreviation config := (gmap string json).
Abbreviation environ := (gmap string string).

(** [self.config[section][key]]. *)
Definition lookup2 (c : config) (section key : string) : result json :=
  table ← getitem (JDict c) section;
  getitem table key.

(** [environ.get(name, default)]. *)
Definition environ_get (e : environ) (name : string) (default : json)
    : json :=
  match e !! name with
  | Some value => JStr value
  | None => default
  end.

(** [environ.get(name, self.config[section][key])]: the default is
    evaluated before the call. *)
Definition env_or_config (e : environ) (c : config)
    (name section key : string) : result json :=
  default ← lookup2 c section key;
  Ok (environ_get e name default).

Definition get_bing_api_key (e : environ) (c : config) : result json :=
  env_or_config e c "BING_API_KEY" "API_KEYS" "BING".
Definition get_bing_api_endpoint (e : environ) (c : config) : result json :=
  env_or_config e c "BING_API_ENDPOINT" "API_ENDPOINTS" "BING".
Definition get_ollama_api_endpoint (e : environ) (c : config)
    : result json :=
  env_or_config e c "OLLAMA_API_ENDPOINT" "API_ENDPOINTS" "OLLAMA".
Definition get_claude_api_key (e : environ) (c : config) : result json :=
  env_or_config e c "CLAUDE_API_KEY" "API_KEYS" "CLAUDE".
Definition get_openai_api_key (e : environ) (c : config) : result json :=
  env_or_config e c "OPENAI_API_KEY" "API_KEYS" "OPENAI".
Definition get_netlify_api_key (e : environ) (c : config) : result json :=
  env_or_config e c "NETLIFY_API_KEY" "API_KEYS" "NETLIFY".
Definition get_groq_api_key (e : environ) (c : config) : result json :=
  env_or_config e c "GROQ_API_KEY" "API_KEYS" "GROQ".
Definition get_sqlite_db (e : environ) (c : config) : result json :=
  env_or_config e c "SQLITE_DB_PATH" "STORAGE" "SQLITE_DB".
Definition get_screenshots_dir (e : environ) (c : config) : result json :=
  env_or_config e c "SCREENSHOTS_DIR" "STORAGE" "SCREENSHOTS_DIR".
Definition get_pdfs_dir (e : environ) (c : config) : result json :=
  env_or_config e c "PDFS_DIR" "STORAGE" "PDFS_DIR".
Definition get_projects_dir (e : environ) (c : config) : result json :=
  env_or_config e c "PROJECTS_DIR" "STORAGE" "PROJECTS_DIR".
Definition get_logs_dir (e : environ) (c : config) : result json :=
  env_or_config e c "LOGS_DIR" "STORAGE" "LOGS_DIR".
Definition get_repos_dir (e : environ) (c : config) : result json :=
  env_or_config e c "REPOS_DIR" "STORAGE" "REPOS_DIR".

Definition get_logging_rest_api (c : config) : result bool :=
  value ← lookup2 c "LOGGING" "LOG_REST_API";
  Ok (eq_str value "true").

Definition get_logging_prompts (c : config) : result bool :=
  value ← lookup2 c "LOGGING" "LOG_PROMPTS";
  Ok (eq_str value "true").

(** [self.config[section][key] = value; self.save_config()]: [self.config]
    after the store, the dictionary that [save_config()] hands to
    [toml.dump].  What a later [Config()] loads from the file written is
    [reopened] below; a setter that raises writes nothing. *)
Definition store2 (c : config) (section key : string) (value : json)
    : result config :=
  table ← getitem (JDict c) section;
  table' ← setitem table key value;
  Ok (<[section := table']> c).


Definition set_logging_rest_api (c : config) (value : json) : result config :=
  store2 c "LOGGING" "LOG_REST_API"
    (JStr (if truthy value then "true" else "false")).

Definition set_logging_prompts (c : config) (value : json) : result config :=
  store2 c "LOGGING" "LOG_PROMPTS"
    (JStr (if truthy value then "true" else "false")).

(** The route [set_settings] of [devika.py] on a JSON object [data]:
    [config.config.update(data)] and [save_config()].  The value is
    [config.config] after the update, the dictionary that [save_config()]
    hands to [toml.dump]. *)
Definition set_settings (c : config) (data : gmap string json) : config :=
  data ∪ c.

(** A later [Config()], after [save_config()] has written the dictionary
    [saved]: [toml.dump] wrote it to [config.toml] and [toml.load] reads the
    file.  Both are the library's; [toml] stands for the two in a row, the
    dictionary loaded or the exception raised.  It need not give the
    dictionary back: [toml.dump] leaves out the entries whose value is
    [None], and a text that it wrote may fail to load. *)
Definition reopened (toml : config → result config) (saved : config)
    : result config :=
  toml saved.

(** Writing and reading the file invents no entry: what a section holds
    under a key after the load, it held, with some value, before. *)
Definition invents_nothing (toml : config → result config) : Prop :=
  ∀ c c' section key value,
    toml c = Ok c' → lookup2 c' section key = Ok value →
    ∃ value', lookup2 c section key = Ok value'.

(** The getters, each with its environment variable, section and key. *)
Definition getters
    : list (string * string * string * (environ → config → result json)) :=
  [("BING_API_KEY", "API_KEYS", "BING", get_bing_api_key);
   ("BING_API_ENDPOINT", "API_ENDPOINTS", "BING", get_bing_api_endpoint);
   ("OLLAMA_API_ENDPOINT", "API_ENDPOINTS", "OLLAMA",
    get_ollama_api_endpoint);
   ("CLAUDE_API_KEY", "API_KEYS", "CLAUDE", get_claude_api_key);
   ("OPENAI_API_KEY", "API_KEYS", "OPENAI", get_openai_api_key);
   ("NETLIFY_API_KEY", "API_KEYS", "NETLIFY", get_netlify_api_key);
   ("GROQ_API_KEY", "API_KEYS", "GROQ", get_groq_api_key);
   ("SQLITE_DB_PATH", "STORAGE", "SQLITE_DB", get_sqlite_db);
   ("SCREENSHOTS_DIR", "STORAGE", "SCREENSHOTS_DIR", get_screenshots_dir);
   ("PDFS_DIR", "STORAGE", "PDFS_DIR", get_pdfs_dir);
   ("PROJECTS_DIR", "STORAGE", "PROJECTS_DIR", get_projects_dir);
   ("LOGS_DIR", "STORAGE", "LOGS_DIR", get_logs_dir);
   ("REPOS_DIR", "STORAGE", "REPOS_DIR", get_repos_dir)].


End Config.

(** ** Histories of the execution-state table *)

Module History.

Import AgentState.

(** The length of the project's snapshot sequence, 0 where there is no
    row. *)
Definition log_length (t : table) (p : string) : nat :=
  match get_current_state t p with
  | Some stack => length stack
  | None => 0
  end.

(** A call of a method of [AgentState] that writes. *)
Inductive call : Type :=
  | DeleteState (p : string)
  | AddToCurrentState (p : string) (state : json)
  | UpdateLatestState (p : string) (state : json)
  | SetAgentActive (now p : string) (is_active : bool)
  | SetAgentCompleted (now p : string) (is_completed : bool)
  | UpdateTokenUsage (now p : string) (token_usage : Z).

Definition outcome (t : table) (c : call) : result table :=
  match c with
  | DeleteState p => Ok (delete_state t p)
  | AddToCurrentState p state => add_to_current_state t p state
  | UpdateLatestState p state => update_latest_state t p state
  | SetAgentActive now p b => set_agent_active now t p b
  | SetAgentCompleted now p b => set_agent_completed now t p b
  | UpdateTokenUsage now p k => update_token_usage now t p k
  end.

(** The table after the call; a call that raises commits nothing. *)
Definition after (t : table) (c : call) : table :=
  match outcome t c with
  | Ok t' => t'
  | Raise _ => t
  end.

(** The tables that calls of [AgentState] make of the empty one. *)
Inductive reachable : table → Prop :=
  | reachable_empty : reachable []
  | reachable_call t c : reachable t → reachable (after t c).

Definition nonempty_stacks (t : table) : Prop :=
  Forall (λ r, state_stack_json r ≠ []) t.

(** The project that a call writes to. *)
Definition target (c : call) : string :=
  match c with
  | DeleteState p => p
  | AddToCurrentState p _ => p
  | UpdateLatestState p _ => p
  | SetAgentActive _ p _ => p
  | SetAgentCompleted _ p _ => p
  | UpdateTokenUsage _ p _ => p
  end.

Definition is_delete (c : call) : bool :=
  match c with
  | DeleteState _ => true
  | _ => false
  end.

(** No project has two rows. *)
Definition one_row_each (t : table) : Prop :=
  NoDup (project <$> t).

End History.

(** ** Sample data *)

Module Samples.

Definition now : string := "2024-05-01 10:00:00".

(** One project with one default snapshot. *)
Definition one_snapshot : AgentState.table :=
  [{| AgentState.project := "Demo";
      AgentState.state_stack_json := [AgentState.new_state now] |}].

(** The project "Demo", created and without messages. *)
Definition demo_created : ProjectManager.table :=
  [{| ProjectManager.project := "Demo";
      ProjectManager.message_stack_json := [] |}].

Definition hello : json :=
  JDict (list_to_map [("from_devika", JBool false);
                      ("message", JStr "hello");
                      ("timestamp", JStr now)]).

Definition hi_there : json :=
  JDict (list_to_map [("from_devika", JBool true);
                      ("message", JStr "hi there");
                      ("timestamp", JStr now)]).

(** No project, no state, no thread. *)
Definition fresh : Devika.world :=
  {| Devika.projects := []; Devika.agent_state := [];
     Devika.threads := [] |}.

End Samples.

(** * Properties *)

(** ** The first row of a key *)

Section FirstRow.

Context {A : Type} (key : A → string).

Local Abbreviation find_first p t := (list_find (λ r, key r = p) t).

Lemma find_first_insert_same (t : list A) p i r r' :
  find_first p t = Some (i, r) → key r' = p →
  find_first p (<[i := r']> t) = Some (i, r').
Proof.
  revert i. induction t as [|x t IH]; intros i Hf Hk; [done|].
  simpl in Hf. destruct (decide (key x = p)) as [Hx|Hx].
  - inversion Hf; subst i r. simpl. rewrite decide_True; done.
  - destruct (list_find _ t) as [[j y]|] eqn:Ht; [|done].
    inversion Hf; subst i r. simpl. rewrite decide_False; [|done].
    rewrite (IH j); done.
Qed.

Lemma find_first_insert_other (t : list A) p q i r r' :
  find_first p t = Some (i, r) → key r' = p → q ≠ p →
  find_first q (<[i := r']> t) = find_first q t.
Proof.
  revert i. induction t as [|x t IH]; intros i Hf Hk Hq; [done|].
  simpl in Hf. destruct (decide (key x = p)) as [Hx|Hx].
  - inversion Hf; subst i r. simpl.
    rewrite !decide_False; [done|congruence..].
  - destruct (list_find _ t) as [[j y]|] eqn:Ht; [|done].
    inversion Hf; subst i r. simpl.
    destruct (decide (key x = q)); [done|]. rewrite (IH j); done.
Qed.

Lemma find_first_snoc_new (t : list A) p r' :
  find_first p t = None → key r' = p →
  find_first p (t ++ [r']) = Some (length t, r').
Proof.
  induction t as [|x t IH]; intros Hf Hk; simpl.
  - rewrite decide_True; done.
  - simpl in Hf. destruct (decide (key x = p)); [done|].
    destruct (list_find _ t) as [[j y]|] eqn:Ht; [done|].
    rewrite IH; done.
Qed.


Lemma find_first_snoc_other (t : list A) q r' :
  key r' ≠ q → find_first q (t ++ [r']) = find_first q t.
Proof.
  intros Hk. induction t as [|x t IH]; simpl.
  - rewrite decide_False; done.
  - destruct (decide (key x = q)); [done|]. by rewrite IH.
Qed.

Lemma find_first_key (t : list A) p i r :
  find_first p t = Some (i, r) → key r = p ∧ t !! i = Some r.
Proof. intros Hf. apply list_find_Some in Hf as (? & ? & _). done. Qed.

Lemma find_first_delete_other (t : list A) p q i r :
  find_first p t = Some (i, r) → q ≠ p →
  snd <$> find_first q (delete i t) = snd <$> find_first q t.
Proof.
  revert i. induction t as [|x t IH]; intros i Hf Hq; [done|].
  simpl in Hf. destruct (decide (key x = p)) as [Hx|Hx].
  - inversion Hf; subst i r. simpl. rewrite decide_False; [|congruence].
    destruct (list_find (λ r, key r = q) t) as [[??]|]; reflexivity.
  - destruct (list_find _ t) as [[j y]|] eqn:Ht; [|done].
    inversion Hf; subst i r. simpl.
    destruct (decide (key x = q)); [done|].
    specialize (IH j eq_refl Hq). 
    destruct (list_find _ (delete j t)) as [[??]|],
      (list_find (λ r, key r = q) t) as [[??]|]; simpl in *; congruence.
Qed.
End FirstRow.

(** ** The execution-state log *)

Section StateLog.

Import AgentState History.

Implicit Types (t : table) (p q : string) (stack init : list json).

Lemma last_item_snoc init x : last_item (init ++ [x]) = Ok x.
Proof. unfold last_item. by rewrite last_snoc. Qed.

Lemma set_last_item_snoc init x y :
  set_last_item (init ++ [x]) y = Ok (init ++ [y]).
Proof.
  unfold set_last_item. destruct (init ++ [x]) eqn:E.
  - by destruct init.
  - rewrite <- E. f_equal. rewrite length_app. simpl.
    replace (pred (length init + 1)) with (length init + 0) by lia.
    by rewrite insert_app_r.
Qed.

Lemma patch_last_snoc init d key x :
  patch_last (init ++ [JDict d]) key x = Ok (init ++ [JDict (<[key := x]> d)]).
Proof.
  unfold patch_last. rewrite last_item_snoc. simpl.
  apply set_last_item_snoc.
Qed.

Lemma snoc_of_nonempty stack :
  stack ≠ [] → ∃ init x, stack = init ++ [x].
Proof.
  intros Hne. destruct (last stack) as [x|] eqn:E.
  - apply last_Some in E as [init ->]. eauto.
  - by apply last_None in E.
Qed.

Lemma first_Some_current t p i r :
  first t p = Some (i, r) → get_current_state t p = Some (state_stack_json r).
Proof. unfold get_current_state. by intros ->. Qed.

Lemma current_Some_first t p stack :
  get_current_state t p = Some stack →
  ∃ i r, first t p = Some (i, r) ∧ state_stack_json r = stack.
Proof.
  unfold get_current_state. destruct (first t p) as [[i r]|]; [|done].
  intros [= <-]. eauto.
Qed.

Lemma current_None_first t p :
  get_current_state t p = None → first t p = None.
Proof.
  unfold get_current_state. by destruct (first t p) as [[i r]|].
Qed.

Lemma first_commit t p i r stack :
  first t p = Some (i, r) →
  first (commit_stack t i r stack) p =
    Some (i, {| project := project r; state_stack_json := stack |}).
Proof.
  intros Hf. unfold first, commit_stack.
  apply (find_first_insert_same project) with (r := r); [done|].
  by apply (find_first_key project) in Hf as [? _].
Qed.

Lemma first_commit_other t p q i r stack :
  first t p = Some (i, r) → q ≠ p →
  first (commit_stack t i r stack) q = first t q.
Proof.
  intros Hf Hq. unfold first, commit_stack.
  apply (find_first_insert_other project) with (p := p) (r := r); [done| |done].
  by apply (find_first_key project) in Hf as [? _].
Qed.

Lemma current_commit t p i r stack :
  first t p = Some (i, r) →
  get_current_state (commit_stack t i r stack) p = Some stack.
Proof.
  intros Hf. unfold get_current_state. by rewrite (first_commit _ _ _ _ _ Hf).
Qed.

Lemma current_commit_other t p q i r stack :
  first t p = Some (i, r) → q ≠ p →
  get_current_state (commit_stack t i r stack) q = get_current_state t q.
Proof.
  intros Hf Hq. unfold get_current_state.
  by rewrite (first_commit_other _ _ _ _ _ _ Hf Hq).
Qed.

Lemma current_add_row t p stack :
  first t p = None → get_current_state (add_row t p stack) p = Some stack.
Proof.
  intros Hf. unfold get_current_state, first, add_row.
  by rewrite (find_first_snoc_new project t p
                {| project := p; state_stack_json := stack |} Hf eq_refl).
Qed.

Lemma current_add_row_other t p q stack :
  q ≠ p → get_current_state (add_row t p stack) q = get_current_state t q.
Proof.
  intros Hq. unfold get_current_state, first, add_row.
  rewrite (find_first_snoc_other project); [done|]. simpl. congruence.
Qed.

(** C2: [update_latest_state] leaves the length of a non-empty snapshot
    sequence as it is, and [add_to_current_state] makes the sequence of any
    project one longer, an absent log counting as length 0.  Both calls
    return. *)
Theorem update_latest_keeps_length_add_grows :
  (∀ t p state stack,
     get_current_state t p = Some stack → stack ≠ [] →
     ∃ t' stack',
       update_latest_state t p state = Ok t' ∧
       get_current_state t' p = Some stack' ∧
       length stack' = length stack) ∧
  (∀ t p state,
     ∃ t', add_to_current_state t p state = Ok t' ∧
           log_length t' p = S (log_length t p)).
Proof.
  split.
  - intros t p state stack Hcur Hne.
    destruct (current_Some_first _ _ _ Hcur) as (i & r & Hf & Hr).
    destruct (snoc_of_nonempty _ Hne) as (init & x & ->).
    unfold update_latest_state. rewrite Hf, Hr, set_last_item_snoc. simpl.
    eexists _, _. split; [done|]. split; [by apply current_commit|].
    by rewrite !length_app.
  - intros t p state. unfold add_to_current_state, log_length.
    destruct (first t p) as [[i r]|] eqn:Hf.
    + eexists. split; [done|].
      rewrite (current_commit _ _ _ _ _ Hf), (first_Some_current _ _ _ _ Hf).
      rewrite length_app. simpl. lia.
    + eexists. split; [done|].
      rewrite (current_add_row _ _ _ Hf).
      unfold get_current_state. by rewrite Hf.
Qed.

Lemma update_latest_keeps_length_witness :
  get_current_state Samples.one_snapshot "Demo"
    = Some [new_state Samples.now] ∧
  [new_state Samples.now] ≠ [] ∧
  ∃ t' stack',
    update_latest_state Samples.one_snapshot "Demo" JNull = Ok t' ∧
    get_current_state t' "Demo" = Some stack' ∧
    length stack' = length [new_state Samples.now].
Proof.
  split; [reflexivity|]. split; [discriminate|].
  apply (proj1 update_latest_keeps_length_add_grows
           Samples.one_snapshot "Demo" JNull [new_state Samples.now]);
    [reflexivity|discriminate].
Defined.

End StateLog.

Section Patches.

Import AgentState History.

Implicit Types (t : table) (p q : string) (stack init : list json).

Lemma last_item_Ok stack x :
  last_item stack = Ok x → ∃ init, stack = init ++ [x].
Proof.
  unfold last_item. destruct (last stack) as [y|] eqn:E; [|done].
  intros [= <-]. by apply last_Some in E.
Qed.

Lemma getitem_Ok v key x :
  getitem v key = Ok x → ∃ d, v = JDict d ∧ d !! key = Some x.
Proof.
  destruct v as [| | | | |d]; try done. simpl.
  destruct (d !! key) as [y|] eqn:E; [|done]. intros [= <-]. eauto.
Qed.

Lemma latest_token_usage_snoc t p init top :
  get_current_state t p = Some (init ++ [top]) →
  get_latest_token_usage t p = getitem top "token_usage".
Proof.
  intros Hcur. destruct (current_Some_first _ _ _ Hcur) as (i & r & Hf & Hr).
  unfold get_latest_token_usage. by rewrite Hf, Hr, last_item_snoc.
Qed.

Lemma token_usage_known t p n :
  is_Some (get_current_state t p) →
  get_latest_token_usage t p = Ok (JInt n) →
  ∃ init d, get_current_state t p = Some (init ++ [JDict d]) ∧
            d !! "token_usage" = Some (JInt n).
Proof.
  intros [stack Hcur] Hget.
  destruct (current_Some_first _ _ _ Hcur) as (i & r & Hf & Hr).
  unfold get_latest_token_usage in Hget. rewrite Hf, Hr in Hget.
  destruct (last_item stack) as [top|] eqn:Hlast; [|done]. simpl in Hget.
  apply last_item_Ok in Hlast as [init ->].
  apply getitem_Ok in Hget as (d & -> & Hd). eauto.
Qed.

Lemma patch_last_singleton d key x :
  patch_last [JDict d] key x = Ok [JDict (<[key := x]> d)].
Proof. apply (patch_last_snoc []). Qed.

(** What [update_token_usage] does to a log that ends in a record whose
    counter can be added to. *)
Lemma update_token_usage_existing now t p k init d old new :
  get_current_state t p = Some (init ++ [JDict d]) →
  d !! "token_usage" = Some old → add_int old k = Ok new →
  ∃ t', update_token_usage now t p k = Ok t' ∧
        get_current_state t' p =
          Some (init ++ [JDict (<["token_usage" := new]> d)]).
Proof.
  intros Hcur Hd Hadd.
  destruct (current_Some_first _ _ _ Hcur) as (i & r & Hf & Hr).
  unfold update_token_usage.
  rewrite Hf, Hr, last_item_snoc. simpl. rewrite Hd. simpl.
  rewrite Hadd. simpl. rewrite patch_last_snoc. simpl.
  eexists. split; [done|]. by apply current_commit.
Qed.

Lemma set_agent_active_existing now t p b init d :
  get_current_state t p = Some (init ++ [JDict d]) →
  ∃ t', set_agent_active now t p b = Ok t' ∧
        get_current_state t' p =
          Some (init ++ [JDict (<["agent_is_active" := JBool b]> d)]).
Proof.
  intros Hcur.
  destruct (current_Some_first _ _ _ Hcur) as (i & r & Hf & Hr).
  unfold set_agent_active. rewrite Hf, Hr, patch_last_snoc. simpl.
  eexists. split; [done|]. by apply current_commit.
Qed.

Lemma set_agent_completed_existing now t p b init d :
  get_current_state t p = Some (init ++ [JDict d]) →
  ∃ t', set_agent_completed now t p b = Ok t' ∧
        get_current_state t' p =
          Some (init ++ [JDict (<["completed" := JBool b]> d)]).
Proof.
  intros Hcur.
  destruct (current_Some_first _ _ _ Hcur) as (i & r & Hf & Hr).
  unfold set_agent_completed. rewrite Hf, Hr, patch_last_snoc. simpl.
  eexists. split; [done|]. by apply current_commit.
Qed.

(** C3: on an existing log whose latest token usage is the integer [n],
    [update_token_usage] with [k] makes it [n + k]; on a project without a
    log it makes it [k]. *)
Theorem update_token_usage_adds :
  (∀ now t p k n,
     is_Some (get_current_state t p) →
     get_latest_token_usage t p = Ok (JInt n) →
     ∃ t', update_token_usage now t p k = Ok t' ∧
           get_latest_token_usage t' p = Ok (JInt (n + k))) ∧
  (∀ now t p k,
     get_current_state t p = None →
     ∃ t', update_token_usage now t p k = Ok t' ∧
           get_latest_token_usage t' p = Ok (JInt k)).
Proof.
  split.
  - intros now t p k n Hsome Hget.
    destruct (token_usage_known _ _ _ Hsome Hget) as (init & d & Hcur & Hd).
    destruct (update_token_usage_existing now t p k init d (JInt n)
                (JInt (n + k)) Hcur Hd eq_refl) as (t' & Hup & Hcur').
    exists t'. split; [done|].
    rewrite (latest_token_usage_snoc _ _ _ _ Hcur'). simpl.
    by rewrite lookup_insert_eq.
  - intros now t p k Hcur. apply current_None_first in Hcur.
    unfold update_token_usage. rewrite Hcur. unfold new_state.
    rewrite patch_last_singleton. simpl. eexists. split; [done|].
    erewrite (latest_token_usage_snoc _ p []);
      [|by apply current_add_row].
    simpl. by rewrite lookup_insert_eq.
Qed.

Lemma update_token_usage_adds_witness :
  is_Some (get_current_state Samples.one_snapshot "Demo") ∧
  get_latest_token_usage Samples.one_snapshot "Demo" = Ok (JInt 0) ∧
  ∃ t', update_token_usage Samples.now Samples.one_snapshot "Demo" 5 = Ok t' ∧
        get_latest_token_usage t' "Demo" = Ok (JInt (0 + 5)).
Proof.
  split; [by eexists|]. split; [reflexivity|].
  apply (proj1 update_token_usage_adds); [by eexists|reflexivity].
Defined.

(** C4: on a log that ends in the record [d], each patch operation returns,
    keeps the earlier snapshots as they are and in their order, stores its
    value in its own field of the last snapshot and leaves every other field
    of it as it was.  For [update_token_usage] the counter of [d] is one that
    can be added to. *)
Theorem patch_changes_only_its_field :
  ∀ now t p init d,
    get_current_state t p = Some (init ++ [JDict d]) →
    (∀ b, ∃ t' d',
       set_agent_active now t p b = Ok t' ∧
       get_current_state t' p = Some (init ++ [JDict d']) ∧
       d' !! "agent_is_active" = Some (JBool b) ∧
       ∀ key, key ≠ "agent_is_active" → d' !! key = d !! key) ∧
    (∀ b, ∃ t' d',
       set_agent_completed now t p b = Ok t' ∧
       get_current_state t' p = Some (init ++ [JDict d']) ∧
       d' !! "completed" = Some (JBool b) ∧
       ∀ key, key ≠ "completed" → d' !! key = d !! key) ∧
    (∀ k old new,
       d !! "token_usage" = Some old → add_int old k = Ok new →
       ∃ t' d',
         update_token_usage now t p k = Ok t' ∧
         get_current_state t' p = Some (init ++ [JDict d']) ∧
         d' !! "token_usage" = Some new ∧
         ∀ key, key ≠ "token_usage" → d' !! key = d !! key).
Proof.
  intros now t p init d Hcur. split; [|split].
  - intros b.
    destruct (set_agent_active_existing now t p b init d Hcur) as (t' & ? & ?).
    eexists t', _. split; [done|]. split; [eassumption|]. split.
    + apply lookup_insert_eq.
    + intros key Hkey. by rewrite lookup_insert_ne.
  - intros b.
    destruct (set_agent_completed_existing now t p b init d Hcur)
      as (t' & ? & ?).
    eexists t', _. split; [done|]. split; [eassumption|]. split.
    + apply lookup_insert_eq.
    + intros key Hkey. by rewrite lookup_insert_ne.
  - intros k old new Hd Hadd.
    destruct (update_token_usage_existing now t p k init d old new Hcur Hd Hadd)
      as (t' & ? & ?).
    eexists t', _. split; [done|]. split; [eassumption|]. split.
    + apply lookup_insert_eq.
    + intros key Hkey. by rewrite lookup_insert_ne.
Qed.

Lemma patch_changes_only_its_field_witness :
  ∃ d,
    get_current_state Samples.one_snapshot "Demo" = Some ([] ++ [JDict d]) ∧
    ∃ t' d',
      set_agent_completed Samples.now Samples.one_snapshot "Demo" true
        = Ok t' ∧
      get_current_state t' "Demo" = Some ([] ++ [JDict d']) ∧
      d' !! "completed" = Some (JBool true) ∧
      ∀ key, key ≠ "completed" → d' !! key = d !! key.
Proof.
  eexists. split; [reflexivity|].
  apply (proj1 (proj2 (patch_changes_only_its_field Samples.now
                         Samples.one_snapshot "Demo" [] _ eq_refl)) true).
Defined.

(** A last snapshot that is no record makes each patch operation raise
    [TypeError]; nothing is committed. *)
Lemma patch_of_non_record_raises now t p init top :
  get_current_state t p = Some (init ++ [top]) →
  (∀ d, top ≠ JDict d) →
  (∀ b, set_agent_active now t p b = Raise TypeError) ∧
  (∀ b, set_agent_completed now t p b = Raise TypeError) ∧
  (∀ k, update_token_usage now t p k = Raise TypeError).
Proof.
  intros Hcur Htop.
  destruct (current_Some_first _ _ _ Hcur) as (i & r & Hf & Hr).
  unfold set_agent_active, set_agent_completed, update_token_usage, patch_last.
  rewrite Hf, Hr, last_item_snoc.
  destruct top; try done. by destruct (Htop d).
Qed.

End Patches.

Section Invariant.

Import AgentState History.

Implicit Types (t : table) (p q : string) (stack init : list json).

Lemma set_last_item_nonempty stack x stack' :
  set_last_item stack x = Ok stack' → stack' ≠ [].
Proof.
  destruct stack as [|y stack]; [done|]. intros [= <-].
  intros Hnil. apply (f_equal length) in Hnil.
  rewrite length_insert in Hnil. done.
Qed.

Lemma patch_last_nonempty stack key x stack' :
  patch_last stack key x = Ok stack' → stack' ≠ [].
Proof.
  unfold patch_last. destruct (last_item stack) as [top|]; [|done]. simpl.
  destruct (setitem top key x) as [top'|]; [|done]. simpl.
  apply set_last_item_nonempty.
Qed.

Lemma commit_nonempty t i r stack :
  nonempty_stacks t → stack ≠ [] → nonempty_stacks (commit_stack t i r stack).
Proof. intros Ht Hs. by apply Forall_insert. Qed.

Lemma add_row_nonempty t p stack :
  nonempty_stacks t → stack ≠ [] → nonempty_stacks (add_row t p stack).
Proof.
  intros Ht Hs. apply Forall_app. split; [done|]. by apply Forall_singleton.
Qed.

Lemma after_nonempty t c : nonempty_stacks t → nonempty_stacks (after t c).
Proof.
  intros Ht. unfold after.
  destruct (outcome t c) as [t'|] eqn:Hout; [|done].
  destruct c as [p|p state|p state|now p b|now p b|now p k]; simpl in Hout.
  - injection Hout as <-. unfold delete_state.
    destruct (first t p) as [[i r]|]; [|done]. by apply Forall_delete.
  - unfold add_to_current_state in Hout.
    destruct (first t p) as [[i r]|]; injection Hout as <-.
    + apply commit_nonempty; [done|]. by destruct (state_stack_json r).
    + by apply add_row_nonempty.
  - unfold update_latest_state in Hout.
    destruct (first t p) as [[i r]|].
    + destruct (set_last_item _ state) as [stack'|] eqn:Hset; [|done].
      injection Hout as <-. apply commit_nonempty; [done|].
      by eapply set_last_item_nonempty.
    + injection Hout as <-. by apply add_row_nonempty.
  - unfold set_agent_active in Hout.
    destruct (first t p) as [[i r]|];
      destruct (patch_last _ _ _) as [stack'|] eqn:Hp; try done;
      injection Hout as <-.
    + apply commit_nonempty; [done|]. by eapply patch_last_nonempty.
    + apply add_row_nonempty; [done|]. by eapply patch_last_nonempty.
  - unfold set_agent_completed in Hout.
    destruct (first t p) as [[i r]|];
      destruct (patch_last _ _ _) as [stack'|] eqn:Hp; try done;
      injection Hout as <-.
    + apply commit_nonempty; [done|]. by eapply patch_last_nonempty.
    + apply add_row_nonempty; [done|]. by eapply patch_last_nonempty.
  - unfold update_token_usage in Hout.
    destruct (first t p) as [[i r]|].
    + destruct (last_item _) as [top|]; [|done]. simpl in Hout.
      destruct (getitem top _) as [old|]; [|done]. simpl in Hout.
      destruct (add_int old k) as [new|]; [|done]. simpl in Hout.
      destruct (patch_last _ _ _) as [stack'|] eqn:Hp; [|done].
      injection Hout as <-.
      apply commit_nonempty; [done|]. by eapply patch_last_nonempty.
    + destruct (patch_last _ _ _) as [stack'|] eqn:Hp; [|done].
      injection Hout as <-.
      apply add_row_nonempty; [done|]. by eapply patch_last_nonempty.
Qed.

Lemma reachable_nonempty t : reachable t → nonempty_stacks t.
Proof.
  induction 1 as [|t c _ IH]; [by apply Forall_nil|by apply after_nonempty].
Qed.

Lemma first_row_nonempty t p i r :
  nonempty_stacks t → first t p = Some (i, r) →
  ∃ top, last_item (state_stack_json r) = Ok top.
Proof.
  intros Ht Hf. apply (find_first_key project) in Hf as [_ Hi].
  pose proof (Forall_lookup_1 _ _ _ _ Ht Hi) as Hr.
  destruct (snoc_of_nonempty _ Hr) as (init & top & ->).
  exists top. apply last_item_snoc.
Qed.

Lemma getitem_no_IndexError v key : getitem v key ≠ Raise IndexError.
Proof.
  destruct v as [| | | | |d]; try done. simpl. by destruct (d !! key).
Qed.

(** C10: every call of [AgentState] keeps the stacks of all rows non-empty,
    so in every table that calls make of the empty one each row holds a
    non-empty stack and its last element is there to be read: none of the
    four readers raises [IndexError]. *)
Theorem stacks_never_empty :
  (∀ t c, nonempty_stacks t → nonempty_stacks (after t c)) ∧
  (∀ t, reachable t →
     nonempty_stacks t ∧
     ∀ p,
       (∀ i r, first t p = Some (i, r) →
               ∃ top, last_item (state_stack_json r) = Ok top) ∧
       get_latest_state t p ≠ Raise IndexError ∧
       is_agent_active t p ≠ Raise IndexError ∧
       is_agent_completed t p ≠ Raise IndexError ∧
       get_latest_token_usage t p ≠ Raise IndexError).
Proof.
  split; [apply after_nonempty|].
  intros t Hreach. pose proof (reachable_nonempty _ Hreach) as Ht.
  split; [done|]. intros p. split; [intros i r; by apply first_row_nonempty|].
  unfold get_latest_state, is_agent_active, is_agent_completed,
    get_latest_token_usage.
  destruct (first t p) as [[i r]|] eqn:Hf; [|done].
  destruct (first_row_nonempty _ _ _ _ Ht Hf) as [top ->]. simpl.
  repeat split; [done|apply getitem_no_IndexError..].
Qed.

Lemma stacks_never_empty_witness :
  reachable (after [] (SetAgentActive Samples.now "Demo" false)) ∧
  nonempty_stacks (after [] (SetAgentActive Samples.now "Demo" false)) ∧
  is_agent_completed (after [] (SetAgentActive Samples.now "Demo" false))
    "Demo" ≠ Raise IndexError.
Proof.
  assert (Hreach :
    reachable (after [] (SetAgentActive Samples.now "Demo" false))).
  { apply reachable_call, reachable_empty. }
  split; [exact Hreach|].
  destruct (proj2 stacks_never_empty _ Hreach) as [Hne Hread].
  split; [exact Hne|]. apply (Hread "Demo").
Defined.

End Invariant.

(** ** The message log *)

Section MessageLog.

Import ProjectManager.

Implicit Types (t : table) (p q : string) (messages old : list json).

Lemma messages_Some_first t p old :
  get_messages t p = Some old →
  ∃ i r, first t p = Some (i, r) ∧ message_stack_json r = old.
Proof.
  unfold get_messages. destruct (first t p) as [[i r]|]; [|done].
  intros [= <-]. eauto.
Qed.

Lemma messages_None_first t p : get_messages t p = None → first t p = None.
Proof. unfold get_messages. by destruct (first t p) as [[i r]|]. Qed.

(** One append: it returns, and the log of the project is the old one, or
    the empty one for a project without a row, with the message at its
    end. *)
Lemma add_message_appends t p m :
  ∃ t', add_message_to_project t p m = Ok t' ∧
        get_messages t' p = Some (default [] (get_messages t p) ++ [m]).
Proof.
  unfold add_message_to_project, get_messages.
  destruct (first t p) as [[i r]|] eqn:Hf.
  - eexists. split; [done|]. unfold first in *.
    erewrite (find_first_insert_same project); [done|exact Hf|].
    by apply (find_first_key project) in Hf as [? _].
  - eexists. split; [done|]. unfold first in *.
    by rewrite (find_first_snoc_new project t p
                  {| project := p; message_stack_json := [m] |} Hf eq_refl).
Qed.

Lemma add_message_other t p q m t' :
  add_message_to_project t p m = Ok t' → q ≠ p →
  get_messages t' q = get_messages t q.
Proof.
  unfold add_message_to_project, get_messages. intros Hadd Hq.
  destruct (first t p) as [[i r]|] eqn:Hf; injection Hadd as <-;
    unfold first in *.
  - erewrite (find_first_insert_other project); [done|exact Hf| |done].
    by apply (find_first_key project) in Hf as [? _].
  - rewrite (find_first_snoc_other project); [done|]. simpl. congruence.
Qed.

Lemma add_messages_appends messages : ∀ t p old,
  get_messages t p = Some old →
  ∃ t', add_messages t p messages = Ok t' ∧
        get_messages t' p = Some (old ++ messages).
Proof.
  induction messages as [|m rest IH]; intros t p old Hold; simpl.
  - exists t. by rewrite app_nil_r.
  - destruct (add_message_appends t p m) as (t1 & -> & H1). simpl.
    rewrite Hold in H1. simpl in H1.
    destruct (IH t1 p _ H1) as (t' & -> & H'). exists t'.
    by rewrite <- app_assoc in H'.
Qed.

(** C5: on a project that had no row, created by [create_project] or by its
    first message, the appends of any sequence of messages all return and
    [get_messages] then yields exactly that sequence, in its order. *)
Theorem get_messages_returns_appended t p messages :
  get_messages t p = None →
  (∃ t0 t',
     create_project t p = Ok t0 ∧
     add_messages t0 p messages = Ok t' ∧
     get_messages t' p = Some messages) ∧
  (messages ≠ [] →
   ∃ t', add_messages t p messages = Ok t' ∧
         get_messages t' p = Some messages).
Proof.
  intros Hnone. split.
  - apply messages_None_first in Hnone.
    assert (Hnew : get_messages
                     (t ++ [{| project := p; message_stack_json := [] |}]) p
                   = Some []).
    { unfold get_messages, first.
      by rewrite (find_first_snoc_new project t p
                    {| project := p; message_stack_json := [] |}
                    Hnone eq_refl). }
    destruct (add_messages_appends messages _ _ _ Hnew) as (t' & Hadd & Hget).
    eexists _, t'. split; [reflexivity|]. split; [exact Hadd|exact Hget].
  - intros Hne. destruct messages as [|m rest]; [done|]. simpl.
    destruct (add_message_appends t p m) as (t1 & -> & H1). simpl.
    rewrite Hnone in H1. simpl in H1.
    apply (add_messages_appends rest t1 p [m] H1).
Qed.

Lemma get_messages_returns_appended_witness :
  get_messages [] "Demo" = None ∧
  ∃ t0 t',
    create_project [] "Demo" = Ok t0 ∧
    add_messages t0 "Demo" [Samples.hello; Samples.hi_there] = Ok t' ∧
    get_messages t' "Demo" = Some [Samples.hello; Samples.hi_there].
Proof.
  split; [reflexivity|].
  apply (proj1 (get_messages_returns_appended [] "Demo"
                  [Samples.hello; Samples.hi_there] eq_refl)).
Defined.



End MessageLog.

(** ** The coordinator *)

Section Coordinator.

Import Devika.

Lemma user_message_built now t p message :
  (new_message ← setitem (ProjectManager.new_message now) "message" message;
   new_message ← setitem new_message "from_devika" (JBool false);
   ProjectManager.add_message_to_project t p new_message)
  = ProjectManager.add_message_to_project t p (user_message now message).
Proof. reflexivity. Qed.

(** The claim of C1 fails: a message sent to a project without any state
    starts no thread. *)
Lemma send_message_fresh_starts_nothing :
  AgentState.get_current_state (agent_state Samples.fresh) "Demo" = None ∧
  ∃ w',
    send_message Samples.now Samples.fresh (JStr "hello") "Demo"
      (JStr "gpt-4") = (w', Ok (response "Message sent")) ∧
    threads w' = [].
Proof. split; [reflexivity|]. eexists. split; reflexivity. Qed.

(** C1, amended: for a project without a state row the completion query
    returns [None], which is falsy, and [send_message] appends the user's
    message, answers, and starts no thread. *)
Theorem send_message_without_state now w message p base_model :
  AgentState.get_current_state (agent_state w) p = None →
  AgentState.is_agent_completed (agent_state w) p = Ok JNull ∧
  truthy JNull = false ∧
  ∃ w',
    send_message now w message p base_model
      = (w', Ok (response "Message sent")) ∧
    threads w' = threads w ∧
    agent_state w' = agent_state w ∧
    ProjectManager.get_messages (projects w') p
      = Some (default [] (ProjectManager.get_messages (projects w) p)
              ++ [user_message now message]).
Proof.
  intros Hnone. apply current_None_first in Hnone.
  assert (Hq : AgentState.is_agent_completed (agent_state w) p = Ok JNull).
  { unfold AgentState.is_agent_completed. by rewrite Hnone. }
  split; [done|]. split; [done|].
  unfold send_message. rewrite user_message_built.
  destruct (add_message_appends (projects w) p (user_message now message))
    as (t' & Hadd & Hget).
  rewrite Hadd, Hq. simpl.
  eexists. split; [reflexivity|]. simpl. done.
Qed.

Lemma send_message_without_state_witness :
  AgentState.get_current_state (agent_state Samples.fresh) "Demo" = None ∧
  ∃ w',
    send_message Samples.now Samples.fresh (JStr "hello") "Demo"
      (JStr "gpt-4") = (w', Ok (response "Message sent")) ∧
    threads w' = threads Samples.fresh.
Proof.
  split; [reflexivity|].
  destruct (send_message_without_state Samples.now Samples.fresh
              (JStr "hello") "Demo" (JStr "gpt-4") eq_refl)
    as (_ & _ & w' & Hsend & Hthreads & _).
  exists w'. split; [exact Hsend|exact Hthreads].
Defined.

(** The thread is started exactly on a truthy completion flag. *)
Lemma send_message_starts_on_completed now w message p base_model v :
  AgentState.is_agent_completed (agent_state w) p = Ok v →
  threads (send_message now w message p base_model).1 =
    if truthy v
    then threads w ++ [SubsequentExecute base_model message p]
    else threads w.
Proof.
  intros Hq. unfold send_message. rewrite user_message_built.
  destruct (add_message_appends (projects w) p (user_message now message))
    as (t' & Hadd & _).
  rewrite Hadd, Hq. by destruct (truthy v).
Qed.

End Coordinator.

(** ** Paths *)

Section Paths.

Import Posixpath.

Implicit Types (a b c x y : string) (comps : list string).

Lemma append_cons ch x y : String ch x +:+ y = String ch (x +:+ y).
Proof. reflexivity. Qed.

Lemma append_empty_r x : x +:+ "" = x.
Proof.
  induction x as [|ch x IH]; [done|]. by rewrite append_cons, IH.
Qed.

Lemma append_assoc x y c : (x +:+ y) +:+ c = x +:+ y +:+ c.
Proof.
  induction x as [|ch x IH]; [done|]. by rewrite !append_cons, IH.
Qed.

Lemma append_nonempty_r x y : y ≠ "" → x +:+ y ≠ "".
Proof. destruct x; [done|]. by rewrite append_cons. Qed.

Lemma startswith_sep_append x y :
  x ≠ "" → startswith_sep (x +:+ y) = startswith_sep x.
Proof. by destruct x. Qed.

Lemma endswith_sep_append x y :
  y ≠ "" → endswith_sep (x +:+ y) = endswith_sep y.
Proof.
  intros Hy. induction x as [|ch x IH]; [done|].
  rewrite append_cons. simpl. rewrite IH.
  destruct (x +:+ y) eqn:E; [|done].
  by destruct (append_nonempty_r x y Hy).
Qed.

Lemma endswith_sep_inv x : endswith_sep x = true → ∃ y, x = y +:+ "/".
Proof.
  induction x as [|ch x IH]; [done|]. simpl.
  destruct x as [|ch' x].
  - intros Hc. apply bool_decide_eq_true in Hc as ->. by exists "".
  - intros Hx. destruct (IH Hx) as [y ->]. by exists (String ch y).
Qed.

Lemma split_sep_nonempty x : split_sep x ≠ [].
Proof.
  induction x as [|ch x IH]; simpl; [done|].
  case_bool_decide; [done|]. by destruct (split_sep x).
Qed.

Lemma split_sep_append x y :
  split_sep (x +:+ String sep y) = split_sep x ++ split_sep y.
Proof.
  induction x as [|ch x IH].
  - reflexivity.
  - rewrite append_cons. simpl. rewrite IH. case_bool_decide; [done|].
    destruct (split_sep x) eqn:E; [|done].
    by destruct (split_sep_nonempty x).
Qed.

Lemma sepless_startswith c : sepless c → startswith_sep c = false.
Proof.
  unfold sepless. destruct c as [|ch c]; [done|]. simpl.
  case_bool_decide; [|done]. intros [= Habs].
Qed.

Lemma sepless_endswith c : sepless c → endswith_sep c = false.
Proof.
  intros Hc. destruct (endswith_sep c) eqn:E; [|done].
  apply endswith_sep_inv in E as [y ->]. unfold sepless in Hc.
  rewrite split_sep_append in Hc. simpl in Hc.
  apply (f_equal length) in Hc. rewrite length_app in Hc. simpl in Hc.
  pose proof (split_sep_nonempty y). destruct (split_sep y); [done|].
  simpl in Hc. lia.
Qed.

Lemma join_relative a x :
  startswith_sep x = false → join a x = dir_prefix a +:+ x.
Proof.
  intros Hx. unfold join, dir_prefix. rewrite Hx.
  destruct (_ || _); [done|]. by rewrite append_assoc.
Qed.

Lemma join_absolute a x : startswith_sep x = true → join a x = x.
Proof. intros Hx. unfold join. by rewrite Hx. Qed.

Lemma dir_prefix_nonempty x : x ≠ "" → dir_prefix x ≠ "".
Proof.
  intros Hx. unfold dir_prefix. destruct (_ || _); [done|].
  by apply append_nonempty_r.
Qed.

Lemma startswith_sep_dir_prefix x :
  startswith_sep (dir_prefix x) = startswith_sep x.
Proof.
  unfold dir_prefix. destruct (decide (x = "")) as [->|Hx]; [done|].
  destruct (_ || _); [done|]. by apply startswith_sep_append.
Qed.

Lemma dir_prefix_append a x :
  dir_prefix (dir_prefix a +:+ x) = dir_prefix a +:+ dir_prefix x.
Proof.
  destruct (decide (x = "")) as [->|Hx].
  - rewrite !append_empty_r. unfold dir_prefix.
    destruct (decide (a = "")) as [->|Ha]; [done|].
    rewrite (bool_decide_eq_false_2 _ Ha). simpl.
    destruct (endswith_sep a) eqn:Ea.
    + by rewrite (bool_decide_eq_false_2 _ Ha), Ea.
    + rewrite (endswith_sep_append a "/") by done. simpl.
      by rewrite orb_true_r.
  - generalize (dir_prefix a). intros da. unfold dir_prefix.
    rewrite (bool_decide_eq_false_2 (x = "") Hx).
    rewrite bool_decide_eq_false_2 by by apply append_nonempty_r.
    rewrite endswith_sep_append by done. simpl.
    destruct (endswith_sep x); [done|]. by rewrite append_assoc.
Qed.

(** [join] is associative where the last part is relative. *)
Lemma join_assoc a x c :
  startswith_sep c = false → join a (join x c) = join (join a x) c.
Proof.
  intros Hc. rewrite (join_relative x c Hc).
  destruct (startswith_sep x) eqn:Sx.
  - rewrite (join_absolute a x Sx), (join_relative x c Hc).
    apply join_absolute.
    destruct (decide (x = "")) as [->|Hx]; [done|].
    rewrite startswith_sep_append by by apply dir_prefix_nonempty.
    by rewrite startswith_sep_dir_prefix.
  - rewrite (join_relative a x Sx), (join_relative _ c Hc).
    rewrite dir_prefix_append, append_assoc.
    apply join_relative.
    destruct (decide (x = "")) as [->|Hx]; [done|].
    rewrite startswith_sep_append by by apply dir_prefix_nonempty.
    by rewrite startswith_sep_dir_prefix.
Qed.

Lemma stack_join x c :
  sepless c → stack (join x c) = norm_step (stack x) c.
Proof.
  intros Hc. rewrite (join_relative x c (sepless_startswith c Hc)).
  destruct (decide (x = "")) as [->|Hx].
  { change (dir_prefix "" +:+ c) with c. unfold stack. by rewrite Hc. }
  unfold stack, dir_prefix.
  rewrite (bool_decide_eq_false_2 _ Hx). simpl.
  destruct (endswith_sep x) eqn:Ex.
  - apply endswith_sep_inv in Ex as [y ->].
    rewrite append_assoc. change ("/" +:+ c) with (String sep c).
    rewrite !split_sep_append, Hc, !foldl_app. done.
  - rewrite append_assoc. change ("/" +:+ c) with (String sep c).
    by rewrite split_sep_append, Hc, foldl_app.
Qed.

Lemma abs_components_join cwd x c :
  sepless c →
  abs_components cwd (join x c)
    = reverse (norm_step (reverse (abs_components cwd x)) c).
Proof.
  intros Hc. unfold abs_components.
  rewrite (join_assoc cwd x c (sepless_startswith c Hc)).
  rewrite reverse_involutive. f_equal. by apply stack_join.
Qed.

Lemma abs_components_child cwd x c :
  component c → abs_components cwd (join x c) = abs_components cwd x ++ [c].
Proof.
  intros (Hc & Hne & Hdot & Hdots). rewrite abs_components_join by done.
  unfold norm_step.
  rewrite !bool_decide_eq_false_2 by done. simpl.
  by rewrite reverse_cons, reverse_involutive.
Qed.

Lemma abs_components_parent cwd x c :
  component c →
  abs_components cwd (join (join x c) "..") = abs_components cwd x.
Proof.
  intros Hc. rewrite abs_components_join by done.
  rewrite (abs_components_child cwd x c Hc), reverse_snoc.
  unfold norm_step. simpl. by rewrite reverse_involutive.
Qed.

Lemma common_prefix_length_app comps rest :
  common_prefix_length comps (comps ++ rest) = length comps.
Proof.
  induction comps as [|x comps IH]; simpl; [by destruct rest|].
  by rewrite bool_decide_eq_true_2, IH.
Qed.

(** The path of something below a directory, relative to the directory's
    parent, starts with the directory's name. *)
Lemma relpath_from_parent cwd x c path first rest :
  component c → path ≠ "" →
  abs_components cwd path = abs_components cwd (join x c) ++ first :: rest →
  relpath cwd path (join (join x c) "..")
    = Ok (join_all c (first :: rest)).
Proof.
  intros Hc Hpath Hcomps. unfold relpath.
  rewrite (bool_decide_eq_false_2 _ Hpath).
  rewrite (abs_components_parent cwd x c Hc), Hcomps.
  rewrite (abs_components_child cwd x c Hc), <- app_assoc.
  rewrite common_prefix_length_app, Nat.sub_diag, drop_app_length. done.
Qed.

End Paths.
(** ** The archiver *)

Section Archive.

Import Posixpath FileSystem ProjectManager.

Implicit Types (a b c x y name : string).

Lemma join_plain x c :
  x ≠ "" → endswith_sep x = false → startswith_sep c = false →
  join x c = x +:+ "/" +:+ c.
Proof.
  intros Hx Hend Hc. unfold join.
  by rewrite Hc, (bool_decide_eq_false_2 _ Hx), Hend.
Qed.

Lemma join_nonempty x c : c ≠ "" → join x c ≠ "".
Proof.
  intros Hc. unfold join. destruct (startswith_sep c); [done|].
  destruct (_ || _); by repeat apply append_nonempty_r.
Qed.


Lemma join_append x c d : c ≠ "" → join x (c +:+ d) = join x c +:+ d.
Proof.
  intros Hc. unfold join. rewrite (startswith_sep_append c d Hc).
  destruct (startswith_sep c); [done|].
  destruct (_ || _); by rewrite !append_assoc.
Qed.

Lemma sepless_cons ch c :
  sepless (String ch c) → ch ≠ sep ∧ sepless c.
Proof.
  unfold sepless. simpl. case_bool_decide as Hch; [done|].
  destruct (split_sep c) as [|comp comps] eqn:E.
  - by destruct (split_sep_nonempty c).
  - intros [= -> ->]. done.
Qed.

Lemma sepless_append c d : sepless c → sepless d → sepless (c +:+ d).
Proof.
  intros Hc Hd. induction c as [|ch c IH]; [done|].
  apply sepless_cons in Hc as [Hch Hc]. specialize (IH Hc).
  rewrite append_cons. unfold sepless in *. simpl.
  by rewrite (bool_decide_eq_false_2 _ Hch), IH.
Qed.

Lemma component_with_suffix name :
  component name → component (name +:+ ".zip").
Proof.
  intros (Hs & Hne & _). split; [by apply sepless_append|].
  destruct name as [|ch rest]; [done|]. rewrite append_cons.
  split; [done|]. 
  assert (rest +:+ ".zip" ≠ "") by by apply append_nonempty_r.
  split; intros [= _ Habs]; [done|].
  destruct rest as [|ch' rest]; [done|]. rewrite append_cons in Habs.
  injection Habs as _ Habs. by apply (append_nonempty_r rest ".zip").
Qed.

Lemma append_longer x y : y ≠ "" → x ≠ x +:+ y.
Proof.
  intros Hy. induction x as [|ch x IH].
  - by destruct y.
  - rewrite append_cons. intros [= Habs]. by apply IH.
Qed.

(** The archive of a project whose directory name is one component lies
    beside the project directory, not inside it. *)
Lemma archive_beside cwd x name :
  component name →
  archive_inside cwd (join x name) (join x name +:+ ".zip") = false.
Proof.
  intros Hname. unfold archive_inside. apply bool_decide_eq_false_2.
  rewrite <- join_append by by destruct Hname as (_ & ? & _).
  rewrite !abs_components_child by by try apply component_with_suffix.
  intros Hpre%prefix_app_inv%prefix_cons_inv_1.
  by apply (append_longer name ".zip").
Qed.


End Archive.

(** ** Directory trees and the loops over a walk *)

Section Trees.

Import Posixpath FileSystem ReadCode.













(** ** Loops that may raise *)



End Trees.

Section Zip.

Import Posixpath FileSystem ProjectManager ReadCode.

Implicit Types (a b c x y name : string).

(** The two names that [project_to_zip] gives to [a.txt] and [sub/b.txt]
    below the directory [name] of [projects_dir]. *)
Lemma relpath_of_a cwd projects_dir name :
  component name →
  relpath cwd (join (join projects_dir name) "a.txt")
    (join (join projects_dir name) "..") = Ok (name +:+ "/a.txt").
Proof.
  intros Hname.
  rewrite (relpath_from_parent cwd projects_dir name _ "a.txt" []);
    [|done|by apply join_nonempty|by apply abs_components_child].
  destruct Hname as (Hs & Hne & _). unfold join_all. simpl.
  by rewrite (join_plain name "a.txt" Hne (sepless_endswith _ Hs)).
Qed.

Lemma relpath_of_sub_b cwd projects_dir name :
  component name →
  relpath cwd (join (join (join projects_dir name) "sub") "b.txt")
    (join (join projects_dir name) "..") = Ok (name +:+ "/sub/b.txt").
Proof.
  intros Hname.
  rewrite (relpath_from_parent cwd projects_dir name _ "sub" ["b.txt"]);
    [|done|by apply join_nonempty|].
  - destruct Hname as (Hs & Hne & _). unfold join_all. simpl.
    rewrite (join_plain name "sub" Hne (sepless_endswith _ Hs)) by done.
    rewrite join_plain; [by rewrite !append_assoc| |by rewrite endswith_sep_append|done].
    by apply append_nonempty_r.
  - rewrite !abs_components_child by done. by rewrite <- app_assoc.
Qed.




(** The loops of [project_to_zip] over the walk of a tree. *)
Local Abbreviation zipped cwd project_path top n :=
  (run_loop (λ item, zip_write cwd project_path item.1 item.2)
     (walk_files (walk top n))).



(** C7, amended: for a project whose directory name, the project name in
    lower case with hyphens for its spaces, is one path component, whose
    path has no null byte and whose directory holds exactly [a.txt] and
    [sub/b.txt], in either order of listing: where the archive can be opened
    and closed and [zipf.write] stores both files, [project_to_zip] returns
    the path of the project directory with [.zip] appended, the path that
    [get_zip_path] gives, a path in the directory that holds the project
    directory, and leaves there an archive whose entries are named
    [name/a.txt] and [name/sub/b.txt], [name] being the directory's name. *)
Theorem project_to_zip_entries lower cwd projects_dir project io
    a_txt b_txt a_bytes b_bytes tree :
  let name := replace_space_hyphen (lower project) in
  let project_dir := join projects_dir name in
  component name →
  has_nul project_dir = false →
  opened io = Ok () → closed io = Ok () →
  zip_written a_txt = Ok a_bytes → zip_written b_txt = Ok b_bytes →
  tree = Dir [("a.txt", File a_txt); ("sub", Dir [("b.txt", File b_txt)])] ∨
  tree = Dir [("sub", Dir [("b.txt", File b_txt)]); ("a.txt", File a_txt)] →
  project_to_zip lower cwd projects_dir project io tree
    = Some (Written [(name +:+ "/a.txt", a_bytes);
                     (name +:+ "/sub/b.txt", b_bytes)],
            Ok (project_dir +:+ ".zip")) ∧
  get_zip_path lower projects_dir project = project_dir +:+ ".zip" ∧
  abs_components cwd project_dir
    = abs_components cwd (join project_dir "..") ++ [name] ∧
  abs_components cwd (project_dir +:+ ".zip")
    = abs_components cwd (join project_dir "..") ++ [name +:+ ".zip"].
Proof.
  intros name project_dir Hname Hnul Hopened Hclosed Ha Hb Htree.
  split; [|split; [done|split]].
  - unfold project_to_zip, get_project_path, os_walk, zip_write.
    fold name. fold project_dir. unfold project_dir at 1 2.
    rewrite (archive_beside cwd projects_dir name Hname).
    fold project_dir. rewrite Hopened, Hnul, Hclosed.
    destruct Htree as [-> | ->]; simpl;
      unfold project_dir;
      rewrite (relpath_of_a cwd projects_dir name Hname),
        (relpath_of_sub_b cwd projects_dir name Hname); simpl;
      rewrite Ha, Hb; reflexivity.
  - unfold project_dir.
    by rewrite abs_components_parent, abs_components_child.
  - unfold project_dir. rewrite abs_components_parent by done.
    rewrite <- join_append by by destruct Hname as (_ & ? & _).
    apply abs_components_child. by apply component_with_suffix.
Qed.

End Zip.

Section ZipInstances.

Import Posixpath FileSystem ProjectManager.

Lemma project_to_zip_entries_witness :
  component (replace_space_hyphen (ascii_lower "My Demo")) ∧
  project_to_zip ascii_lower "/home/user" "data/projects" "My Demo"
    {| opened := Ok (); closed := Ok () |}
    (Dir [("a.txt", File (plain "alpha"));
          ("sub", Dir [("b.txt", File (plain "beta"))])])
  = Some (Written [("my-demo/a.txt", "alpha"); ("my-demo/sub/b.txt", "beta")],
          Ok "data/projects/my-demo.zip").
Proof.
  assert (Hname : component (replace_space_hyphen (ascii_lower "My Demo"))).
  { split; [reflexivity|]. split; [|split]; vm_compute; discriminate. }
  split; [exact Hname|].
  apply (project_to_zip_entries ascii_lower "/home/user" "data/projects"
           "My Demo" {| opened := Ok (); closed := Ok () |}
           (plain "alpha") (plain "beta") "alpha" "beta" _ Hname
           eq_refl eq_refl eq_refl eq_refl eq_refl (or_introl eq_refl)).
Defined.

(** The claim of C7 fails: it does not hold of every project with these two
    files.  A file whose time stamp is before 1980 is refused by
    [zipf.write]: the call raises and leaves an archive without an entry.
    A project name with a separator puts the project directory one level
    deeper, and the entries are named after the directory [b], not after
    the project [a/b]. *)
Lemma project_to_zip_not_every_project :
  project_to_zip ascii_lower "/home/user" "data/projects" "demo"
    {| opened := Ok (); closed := Ok () |}
    (Dir [("a.txt", File (stamped_before_1980 "alpha"));
          ("sub", Dir [("b.txt", File (plain "beta"))])])
  = Some (Written [], Raise ValueError) ∧
  project_to_zip ascii_lower "/home/user" "data/projects" "a/b"
    {| opened := Ok (); closed := Ok () |}
    (Dir [("a.txt", File (plain "alpha"));
          ("sub", Dir [("b.txt", File (plain "beta"))])])
  = Some (Written [("b/a.txt", "alpha"); ("b/sub/b.txt", "beta")],
          Ok "data/projects/a/b.zip") ∧
  [("b/a.txt", "alpha"); ("b/sub/b.txt", "beta")]
  ≠ [("a/b/a.txt", "alpha"); ("a/b/sub/b.txt", "beta")].
Proof. repeat split; (vm_compute; reflexivity) || discriminate. Qed.

End ZipInstances.

(** ** The directory scan *)

Section Scan.

Import Posixpath FileSystem ReadCode ProjectManager.

(** The entries that the scan of [n] at [top] appends. *)
Local Abbreviation scanned top n :=
  (flat_map (λ step, flat_map (read_file step.1.1) step.2) (walk top n)).






End Scan.

Section ScanInstances.

Import Posixpath FileSystem ReadCode ProjectManager.


(** A scan that meets an unreadable file. *)
Example read_directory_skips_unreadable :
  read_directory {| directory_path := "data/projects/demo" |}
    (Dir [("a.txt", File (plain "alpha"));
          ("locked", File locked);
          ("sub", Dir [("b.txt", File (plain "beta"))])])
  = Ok [JDict (list_to_map [("filename", JStr "data/projects/demo/a.txt");
                            ("code", JStr "alpha")]);
        JDict (list_to_map [("filename", JStr "data/projects/demo/sub/b.txt");
                            ("code", JStr "beta")])].
Proof. reflexivity. Qed.


End ScanInstances.

(** ** The PDF converter *)

Section ConverterFacts.

Import Posixpath FileSystem PDF.

Variable markdown : string → result string.
Variable CreatePDF : string → result pisa_status.

(** C8, amended: [markdown_to_pdf] has no handler.  It returns exactly when
    [markdown], opening the file, [pisa.CreatePDF] and closing the file all
    return and the status counts no error, and it then returns
    [<project>.pdf] joined to the configured directory, a path in that
    directory where [<project>.pdf] is one path component.  Where they all
    return and the status counts an error it raises its
    ["Error generating PDF"] exception; an exception of [markdown], of
    opening the file, of [pisa.CreatePDF] or of closing the file reaches the
    caller as it is. *)
Theorem markdown_to_pdf_raises_iff_err io pdf_path markdown_string
    project_name :
  let outcome :=
    (markdown_to_pdf markdown CreatePDF io pdf_path markdown_string
       project_name).2 in
  let out_file_path := join pdf_path (project_name +:+ ".pdf") in
  (∀ path, outcome = Ok path ↔
     path = out_file_path ∧
     ∃ html status,
       markdown markdown_string = Ok html ∧ opened io = Ok () ∧
       CreatePDF html = Ok status ∧ closed io = Ok () ∧ err status = 0%Z) ∧
  (∀ html status,
     markdown markdown_string = Ok html → opened io = Ok () →
     CreatePDF html = Ok status → closed io = Ok () → err status ≠ 0%Z →
     outcome = Raise (Exception "Error generating PDF")) ∧
  (∀ e, markdown markdown_string = Raise e → outcome = Raise e) ∧
  (∀ html e,
     markdown markdown_string = Ok html → opened io = Raise e →
     outcome = Raise e) ∧
  (∀ html e,
     markdown markdown_string = Ok html → opened io = Ok () →
     CreatePDF html = Raise e → closed io = Ok () → outcome = Raise e) ∧
  (∀ html e,
     markdown markdown_string = Ok html → opened io = Ok () →
     closed io = Raise e → outcome = Raise e) ∧
  (∀ cwd, component (project_name +:+ ".pdf") →
     abs_components cwd out_file_path
       = abs_components cwd pdf_path ++ [project_name +:+ ".pdf"]).
Proof.
  unfold markdown_to_pdf. repeat split.
  - destruct (markdown markdown_string) as [html|]; [|done].
    destruct (opened io) as [[]|]; [|done]. simpl in H.
    destruct (CreatePDF html) as [[n]|], (closed io) as [[]|]; try done.
    simpl in H. destruct (Z.eqb_spec n 0); simpl in H; congruence.
  - destruct (markdown markdown_string) as [html|]; [|done].
    destruct (opened io) as [[]|]; [|done]. simpl in H.
    destruct (CreatePDF html) as [[n]|] eqn:Hpdf, (closed io) as [[]|];
      try done.
    simpl in H. destruct (Z.eqb_spec n 0); simpl in H; [|done].
    by exists html, {| err := n |}.
  - intros (-> & html & [n] & -> & -> & Hpdf & -> & Herr). simpl.
    rewrite Hpdf. simpl in *. by rewrite Herr.
  - intros html [n] -> -> -> -> Herr. simpl in *.
    by destruct (Z.eqb_spec n 0).
  - by intros e ->.
  - by intros html e -> ->.
  - by intros html e -> -> -> ->.
  - intros html e -> -> ->. simpl. by destruct (CreatePDF html).
  - intros cwd Hname. by apply abs_components_child.
Qed.

End ConverterFacts.

Section ConverterInstances.

Import FileSystem PDF.

Example markdown_to_pdf_of_demo :
  markdown_to_pdf Ok (λ _, Ok {| err := 0 |})
    {| opened := Ok (); closed := Ok () |} "data/pdfs" "# Demo" "Demo"
  = (Some "data/pdfs/Demo.pdf", Ok "data/pdfs/Demo.pdf").
Proof. reflexivity. Qed.

Example markdown_to_pdf_failing :
  markdown_to_pdf Ok (λ _, Ok {| err := 2 |})
    {| opened := Ok (); closed := Ok () |} "data/pdfs" "# Demo" "Demo"
  = (Some "data/pdfs/Demo.pdf", Raise (Exception "Error generating PDF")).
Proof. reflexivity. Qed.

(** The claim of C8 fails: the call raises although the conversion reports
    no failure, where the directory of the PDF files is missing and [open]
    raises, or where the conversion itself raises instead of reporting.
    With a project name that holds separators the path returned lies
    outside the configured directory. *)
Lemma markdown_to_pdf_raises_without_err :
  markdown_to_pdf Ok (λ _, Ok {| err := 0 |})
    {| opened := Raise OSError; closed := Ok () |} "no/such/dir" "# Demo"
    "Demo"
  = (None, Raise OSError) ∧
  markdown_to_pdf Ok (λ _, Raise ValueError)
    {| opened := Ok (); closed := Ok () |} "data/pdfs" "# Demo" "Demo"
  = (Some "data/pdfs/Demo.pdf", Raise ValueError) ∧
  markdown_to_pdf Ok (λ _, Ok {| err := 0 |})
    {| opened := Ok (); closed := Ok () |} "data/pdfs" "# Demo" "../../x"
  = (Some "data/pdfs/../../x.pdf", Ok "data/pdfs/../../x.pdf") ∧
  Posixpath.abs_components "/home/user" "data/pdfs/../../x.pdf"
  = ["home"; "user"; "x.pdf"].
Proof. repeat split; vm_compute; reflexivity. Qed.

Lemma markdown_to_pdf_raises_iff_err_witness :
  Posixpath.component "Demo.pdf" ∧
  Posixpath.abs_components "/home/user" "data/pdfs/Demo.pdf"
  = ["home"; "user"; "data"; "pdfs"; "Demo.pdf"].
Proof.
  assert (Hname : Posixpath.component ("Demo" +:+ ".pdf")).
  { split; [reflexivity|]. split; [|split]; vm_compute; discriminate. }
  split; [exact Hname|].
  apply (proj2 (proj2 (proj2 (proj2 (proj2 (proj2
           (markdown_to_pdf_raises_iff_err Ok (λ _, Ok {| err := 0 |})
              {| opened := Ok (); closed := Ok () |} "data/pdfs" "# Demo"
              "Demo")))))) "/home/user" Hname).
Defined.

End ConverterInstances.


(** * Further properties *)

(** ** The execution-state table as a whole *)

Section StateTable.

Import AgentState History.

Implicit Types (t : table) (p q : string) (stack init : list json)
  (c : call).

Lemma first_None_not_in t p : first t p = None → p ∉ project <$> t.
Proof.
  intros Hf. apply list_find_None in Hf.
  intros (r & -> & Hr)%list_elem_of_fmap.
  by apply (proj1 (Forall_forall _ _) Hf r Hr).
Qed.

Lemma commit_projects t p i r stack :
  first t p = Some (i, r) →
  project <$> commit_stack t i r stack = project <$> t.
Proof.
  intros Hf. apply (find_first_key project) in Hf as [_ Hi].
  unfold commit_stack, table. rewrite list_fmap_insert. simpl.
  apply list_insert_id. by rewrite list_lookup_fmap, Hi.
Qed.

Lemma commit_one_row t p i r stack :
  first t p = Some (i, r) → one_row_each t →
  one_row_each (commit_stack t i r stack).
Proof. intros Hf Ht. unfold one_row_each. by rewrite (commit_projects _ p). Qed.

Lemma add_row_one_row t p stack :
  first t p = None → one_row_each t → one_row_each (add_row t p stack).
Proof.
  intros Hf Ht. unfold one_row_each, add_row. rewrite fmap_app.
  apply NoDup_app. split; [done|]. split; [|apply NoDup_singleton].
  intros x Hx ->%list_elem_of_singleton. by apply (first_None_not_in t p).
Qed.

Lemma after_one_row t c : one_row_each t → one_row_each (after t c).
Proof.
  intros Ht. unfold after.
  destruct (outcome t c) as [t'|] eqn:Hout; [|done].
  destruct c as [p|p state|p state|now p b|now p b|now p k]; simpl in Hout.
  - injection Hout as <-. unfold delete_state.
    destruct (first t p) as [[i r]|]; [|done].
    unfold one_row_each, table. rewrite list_fmap_delete.
    eapply sublist_NoDup; [exact Ht|apply sublist_delete].
  - unfold add_to_current_state in Hout.
    destruct (first t p) as [[i r]|] eqn:Hf; injection Hout as <-.
    + by apply (commit_one_row t p).
    + by apply add_row_one_row.
  - unfold update_latest_state in Hout.
    destruct (first t p) as [[i r]|] eqn:Hf.
    + destruct (set_last_item _ state) as [stack'|]; [|done].
      injection Hout as <-. by apply (commit_one_row t p).
    + injection Hout as <-. by apply add_row_one_row.
  - unfold set_agent_active in Hout.
    destruct (first t p) as [[i r]|] eqn:Hf;
      destruct (patch_last _ _ _) as [stack'|]; try done;
      injection Hout as <-.
    + by apply (commit_one_row t p).
    + by apply add_row_one_row.
  - unfold set_agent_completed in Hout.
    destruct (first t p) as [[i r]|] eqn:Hf;
      destruct (patch_last _ _ _) as [stack'|]; try done;
      injection Hout as <-.
    + by apply (commit_one_row t p).
    + by apply add_row_one_row.
  - unfold update_token_usage in Hout.
    destruct (first t p) as [[i r]|] eqn:Hf.
    + destruct (last_item _) as [top|]; [|done]. simpl in Hout.
      destruct (getitem top _) as [old|]; [|done]. simpl in Hout.
      destruct (add_int old k) as [new|]; [|done]. simpl in Hout.
      destruct (patch_last _ _ _) as [stack'|]; [|done].
      injection Hout as <-. by apply (commit_one_row t p).
    + destruct (patch_last _ _ _) as [stack'|]; [|done].
      injection Hout as <-. by apply add_row_one_row.
Qed.

Lemma reachable_one_row t : reachable t → one_row_each t.
Proof.
  induction 1 as [|t c _ IH]; [apply NoDup_nil_2|by apply after_one_row].
Qed.

(** X1: the methods of [AgentState] never give a project a second row:
    every call keeps the projects of the rows distinct, so in every table
    that calls make of the empty one the rows have distinct projects. *)
Theorem agent_state_one_row_per_project :
  (∀ t c, one_row_each t → one_row_each (after t c)) ∧
  (∀ t, reachable t → one_row_each t).
Proof. split; [apply after_one_row|apply reachable_one_row]. Qed.

Lemma delete_state_gone t p :
  one_row_each t → get_current_state (delete_state t p) p = None.
Proof.
  intros Ht. unfold delete_state.
  destruct (first t p) as [[i r]|] eqn:Hf.
  2: { unfold get_current_state. by rewrite Hf. }
  unfold get_current_state, first.
  assert (list_find (λ r, project r = p) (delete i t) = None) as ->; [|done].
  apply list_find_None, Forall_forall. intros r' Hr' Hp.
  unfold one_row_each, table in *.
  apply list_elem_of_lookup in Hr' as [j Hj].
  apply (find_first_key project) in Hf as [Hr Hi].
  assert (Hproj : ∀ k x, t !! k = Some x → (project <$> t) !! k = Some (project x)).
  { intros k x Hk. unfold table in *. by rewrite list_lookup_fmap, Hk. }
  destruct (decide (j < i)) as [Hlt|Hge].
  - rewrite list_lookup_delete_lt in Hj by done.
    apply Hproj in Hj, Hi. rewrite Hp, <- Hr in Hj.
    pose proof (NoDup_lookup _ _ _ _ Ht Hj Hi). lia.
  - rewrite list_lookup_delete_ge in Hj by lia.
    apply Hproj in Hj, Hi. rewrite Hp, <- Hr in Hj.
    pose proof (NoDup_lookup _ _ _ _ Ht Hj Hi). lia.
Qed.

Lemma delete_state_other t p q :
  q ≠ p → get_current_state (delete_state t p) q = get_current_state t q.
Proof.
  intros Hq. unfold delete_state.
  destruct (first t p) as [[i r]|] eqn:Hf; [|done].
  unfold get_current_state, first, table in *.
  pose proof (find_first_delete_other project t p q i r Hf Hq) as Hd.
  revert Hd.
  destruct (list_find _ (delete i t)) as [[??]|],
    (list_find (λ r, project r = q) t) as [[??]|];
    intros Hd; cbn in Hd; by simplify_eq.
Qed.

(** X2: in a table that calls of [AgentState] have made, [delete_state]
    leaves the project without any state, so that its token usage reads 0
    and its flags read [None], and leaves the logs of all other projects as
    they were. *)
Theorem delete_state_forgets_project t p :
  reachable t →
  get_current_state (delete_state t p) p = None ∧
  get_latest_state (delete_state t p) p = Ok JNull ∧
  is_agent_active (delete_state t p) p = Ok JNull ∧
  is_agent_completed (delete_state t p) p = Ok JNull ∧
  get_latest_token_usage (delete_state t p) p = Ok (JInt 0) ∧
  ∀ q, q ≠ p →
    get_current_state (delete_state t p) q = get_current_state t q.
Proof.
  intros Hreach.
  pose proof (delete_state_gone t p (reachable_one_row t Hreach)) as Hgone.
  pose proof (current_None_first _ _ Hgone) as Hf.
  unfold get_latest_state, is_agent_active, is_agent_completed,
    get_latest_token_usage. rewrite Hf.
  repeat split; try done. intros q Hq. by apply delete_state_other.
Qed.

Lemma delete_state_forgets_project_witness :
  reachable (after [] (AddToCurrentState "Demo" JNull)) ∧
  get_current_state
    (delete_state (after [] (AddToCurrentState "Demo" JNull)) "Demo") "Demo"
  = None.
Proof.
  assert (Hreach : reachable (after [] (AddToCurrentState "Demo" JNull))).
  { apply reachable_call, reachable_empty. }
  split; [exact Hreach|].
  apply (delete_state_forgets_project _ "Demo" Hreach).
Defined.

End StateTable.

Section StateReaders.

Import AgentState History.

Implicit Types (t : table) (p q : string) (stack init : list json)
  (c : call).

Lemma latest_state_snoc t p init top :
  get_current_state t p = Some (init ++ [top]) →
  get_latest_state t p = Ok top.
Proof.
  intros Hcur. destruct (current_Some_first _ _ _ Hcur) as (i & r & Hf & Hr).
  unfold get_latest_state. by rewrite Hf, Hr, last_item_snoc.
Qed.

Lemma readers_snoc t p init top :
  get_current_state t p = Some (init ++ [top]) →
  is_agent_active t p = getitem top "agent_is_active" ∧
  is_agent_completed t p = getitem top "completed" ∧
  get_latest_token_usage t p = getitem top "token_usage".
Proof.
  intros Hcur. destruct (current_Some_first _ _ _ Hcur) as (i & r & Hf & Hr).
  unfold is_agent_active, is_agent_completed, get_latest_token_usage.
  by rewrite Hf, Hr, last_item_snoc.
Qed.

Lemma set_last_item_Ok stack x stack' :
  set_last_item stack x = Ok stack' →
  ∃ init old, stack = init ++ [old] ∧ stack' = init ++ [x].
Proof.
  intros Hset. destruct (decide (stack = [])) as [->|Hne]; [done|].
  destruct (snoc_of_nonempty _ Hne) as (init & old & ->).
  rewrite set_last_item_snoc in Hset. injection Hset as <-. eauto.
Qed.

Lemma patch_last_Ok stack key x stack' :
  patch_last stack key x = Ok stack' →
  ∃ init d, stack = init ++ [JDict d] ∧
            stack' = init ++ [JDict (<[key := x]> d)].
Proof.
  unfold patch_last. intros Hp.
  destruct (last_item stack) as [top|] eqn:Hlast; [|done].
  apply last_item_Ok in Hlast as [init ->]. simpl in Hp.
  destruct top as [| | | | |d]; try done. simpl in Hp.
  rewrite set_last_item_snoc in Hp. injection Hp as <-. eauto.
Qed.

(** What a call that returns has made of the log of its project: a new
    last snapshot on the old log, or on the old log without its last
    snapshot. *)
Lemma update_latest_state_Ok t p state t' :
  update_latest_state t p state = Ok t' →
  ∃ init, get_current_state t' p = Some (init ++ [state]).
Proof.
  unfold update_latest_state. intros Hup.
  destruct (first t p) as [[i r]|] eqn:Hf.
  - destruct (set_last_item _ state) as [stack'|] eqn:Hset; [|done].
    injection Hup as <-.
    apply set_last_item_Ok in Hset as (init & old & _ & ->).
    exists init. by apply current_commit.
  - injection Hup as <-. exists []. by apply current_add_row.
Qed.

(** X3: the snapshot written by [add_to_current_state] or by
    [update_latest_state] is the one that [get_latest_state] returns next;
    [add_to_current_state] always returns, and [update_latest_state] returns
    on every table that calls of [AgentState] have made. *)
Theorem latest_state_is_last_written :
  (∀ t p state,
     ∃ t', add_to_current_state t p state = Ok t' ∧
           get_latest_state t' p = Ok state) ∧
  (∀ t p state t',
     update_latest_state t p state = Ok t' →
     get_latest_state t' p = Ok state) ∧
  (∀ t p state,
     reachable t → ∃ t', update_latest_state t p state = Ok t').
Proof.
  split; [|split].
  - intros t p state. unfold add_to_current_state.
    destruct (first t p) as [[i r]|] eqn:Hf; eexists; (split; [done|]).
    + apply latest_state_snoc with (state_stack_json r).
      by apply current_commit.
    + apply latest_state_snoc with []. by apply current_add_row.
  - intros t p state t' Hup.
    destruct (update_latest_state_Ok _ _ _ _ Hup) as [init Hcur].
    by apply latest_state_snoc with init.
  - intros t p state Hreach. unfold update_latest_state.
    destruct (first t p) as [[i r]|] eqn:Hf; [|by eexists].
    destruct (first_row_nonempty t p i r (reachable_nonempty t Hreach) Hf)
      as [top Htop].
    apply last_item_Ok in Htop as [init ->].
    rewrite set_last_item_snoc. by eexists.
Qed.

Lemma patch_row_Ok t p key x t' (op : result table) now :
  op = match first t p with
       | Some (i, r) =>
           state_stack ← patch_last (state_stack_json r) key x;
           Ok (commit_stack t i r state_stack)
       | None =>
           state_stack ← patch_last [new_state now] key x;
           Ok (add_row t p state_stack)
       end →
  op = Ok t' →
  ∃ init d,
    get_current_state t' p = Some (init ++ [JDict (<[key := x]> d)]) ∧
    match get_current_state t p with
    | Some stack => stack = init ++ [JDict d]
    | None => init = [] ∧ new_state now = JDict d
    end.
Proof.
  intros -> Hop. destruct (first t p) as [[i r]|] eqn:Hf.
  - destruct (patch_last _ key x) as [stack'|] eqn:Hp; [|done].
    injection Hop as <-.
    apply patch_last_Ok in Hp as (init & d & Hstack & ->).
    exists init, d. split; [by apply current_commit|].
    by rewrite (first_Some_current _ _ _ _ Hf).
  - unfold new_state in Hop. rewrite patch_last_singleton in Hop.
    injection Hop as <-. eexists [], _. split; [by apply current_add_row|].
    unfold get_current_state. by rewrite Hf.
Qed.

(** X4: a flag set is the flag read: after [set_agent_active] returns,
    [is_agent_active] returns the value set, and likewise for
    [set_agent_completed] and [is_agent_completed]; on a project that had
    a log, setting one flag leaves what the readers of the other flag and of
    the token usage return as it was. *)
Theorem flag_set_is_flag_read now t p b t' :
  (set_agent_active now t p b = Ok t' →
   is_agent_active t' p = Ok (JBool b) ∧
   (is_Some (get_current_state t p) →
    is_agent_completed t' p = is_agent_completed t p ∧
    get_latest_token_usage t' p = get_latest_token_usage t p)) ∧
  (set_agent_completed now t p b = Ok t' →
   is_agent_completed t' p = Ok (JBool b) ∧
   (is_Some (get_current_state t p) →
    is_agent_active t' p = is_agent_active t p ∧
    get_latest_token_usage t' p = get_latest_token_usage t p)).
Proof.
  split; intros Hset.
  - destruct (patch_row_Ok t p "agent_is_active" (JBool b) t' _ now
                eq_refl Hset) as (init & d & Hcur' & Hold).
    destruct (readers_snoc _ _ _ _ Hcur') as (Ha & Hc & Hu).
    split; [rewrite Ha; simpl; by rewrite lookup_insert_eq|].
    intros [stack Hcur]. rewrite Hcur in Hold. subst stack.
    destruct (readers_snoc _ _ _ _ Hcur) as (_ & Hc0 & Hu0).
    rewrite Hc, Hc0, Hu, Hu0. simpl. by rewrite !lookup_insert_ne.
  - destruct (patch_row_Ok t p "completed" (JBool b) t' _ now
                eq_refl Hset) as (init & d & Hcur' & Hold).
    destruct (readers_snoc _ _ _ _ Hcur') as (Ha & Hc & Hu).
    split; [rewrite Hc; simpl; by rewrite lookup_insert_eq|].
    intros [stack Hcur]. rewrite Hcur in Hold. subst stack.
    destruct (readers_snoc _ _ _ _ Hcur) as (Ha0 & _ & Hu0).
    rewrite Ha, Ha0, Hu, Hu0. simpl. by rewrite !lookup_insert_ne.
Qed.

End StateReaders.

Section StateFrames.

Import AgentState History.

Implicit Types (t : table) (p q : string) (stack init : list json)
  (c : call).

(** X5: a patch on a project without a log returns and seeds the log with
    exactly one snapshot: the default one, stamped with the current time, in
    which the patched field alone has another value.  So a project marked
    completed this way reads as active, with token usage 0. *)
Theorem patch_without_log_seeds_default now t p :
  let snapshot := λ completed agent_is_active token_usage,
    JDict (list_to_map [
      ("internal_monologue", JNull);
      ("browser_session",
         JDict (list_to_map [("url", JNull); ("screenshot", JNull)]));
      ("terminal_session",
         JDict (list_to_map [("command", JNull); ("output", JNull);
                             ("title", JNull)]));
      ("step", JNull);
      ("message", JNull);
      ("completed", JBool completed);
      ("agent_is_active", JBool agent_is_active);
      ("token_usage", JInt token_usage);
      ("timestamp", JStr now)]) in
  get_current_state t p = None →
  (∀ b, ∃ t',
     set_agent_completed now t p b = Ok t' ∧
     get_current_state t' p = Some [snapshot b true 0%Z] ∧
     is_agent_completed t' p = Ok (JBool b) ∧
     is_agent_active t' p = Ok (JBool true) ∧
     get_latest_token_usage t' p = Ok (JInt 0)) ∧
  (∀ b, ∃ t',
     set_agent_active now t p b = Ok t' ∧
     get_current_state t' p = Some [snapshot false b 0%Z] ∧
     is_agent_active t' p = Ok (JBool b) ∧
     is_agent_completed t' p = Ok (JBool false) ∧
     get_latest_token_usage t' p = Ok (JInt 0)) ∧
  (∀ k, ∃ t',
     update_token_usage now t p k = Ok t' ∧
     get_current_state t' p = Some [snapshot false true k] ∧
     get_latest_token_usage t' p = Ok (JInt k) ∧
     is_agent_active t' p = Ok (JBool true) ∧
     is_agent_completed t' p = Ok (JBool false)).
Proof.
  intros snapshot Hnone. apply current_None_first in Hnone.
  split; [|split]; intros x;
    unfold set_agent_completed, set_agent_active, update_token_usage,
      new_state;
    rewrite Hnone, patch_last_singleton; simpl;
    eexists; (split; [reflexivity|]);
    match goal with
    | |- get_current_state (add_row _ _ ?s) _ = _ ∧ _ =>
        pose proof (current_add_row t p s Hnone) as Hcur
    end;
    (split; [rewrite Hcur; reflexivity|]);
    destruct (readers_snoc _ p [] _ Hcur) as (-> & -> & ->);
    repeat split; reflexivity.
Qed.

Lemma patch_without_log_seeds_default_witness :
  get_current_state [] "Demo" = None ∧
  ∃ t',
    set_agent_completed Samples.now [] "Demo" true = Ok t' ∧
    is_agent_completed t' "Demo" = Ok (JBool true) ∧
    is_agent_active t' "Demo" = Ok (JBool true) ∧
    get_latest_token_usage t' "Demo" = Ok (JInt 0).
Proof.
  split; [reflexivity|].
  destruct (proj1 (patch_without_log_seeds_default Samples.now [] "Demo"
                     eq_refl) true) as (t' & Hset & _ & Hreads).
  exists t'. split; [exact Hset|exact Hreads].
Defined.

Lemma outcome_other t c q t' :
  outcome t c = Ok t' → target c ≠ q →
  get_current_state t' q = get_current_state t q.
Proof.
  intros Hout Hq.
  destruct c as [p|p state|p state|now p b|now p b|now p k];
    simpl in Hout, Hq.
  - injection Hout as <-. by apply delete_state_other.
  - unfold add_to_current_state in Hout.
    destruct (first t p) as [[i r]|] eqn:Hf; injection Hout as <-.
    + by apply (current_commit_other t p).
    + by apply current_add_row_other.
  - unfold update_latest_state in Hout.
    destruct (first t p) as [[i r]|] eqn:Hf.
    + destruct (set_last_item _ state) as [stack'|]; [|done].
      injection Hout as <-. by apply (current_commit_other t p).
    + injection Hout as <-. by apply current_add_row_other.
  - unfold set_agent_active in Hout.
    destruct (first t p) as [[i r]|] eqn:Hf;
      destruct (patch_last _ _ _) as [stack'|]; try done;
      injection Hout as <-.
    + by apply (current_commit_other t p).
    + by apply current_add_row_other.
  - unfold set_agent_completed in Hout.
    destruct (first t p) as [[i r]|] eqn:Hf;
      destruct (patch_last _ _ _) as [stack'|]; try done;
      injection Hout as <-.
    + by apply (current_commit_other t p).
    + by apply current_add_row_other.
  - unfold update_token_usage in Hout.
    destruct (first t p) as [[i r]|] eqn:Hf.
    + destruct (last_item _) as [top|]; [|done]. simpl in Hout.
      destruct (getitem top _) as [old|]; [|done]. simpl in Hout.
      destruct (add_int old k) as [new|]; [|done]. simpl in Hout.
      destruct (patch_last _ _ _) as [stack'|]; [|done].
      injection Hout as <-. by apply (current_commit_other t p).
    + destruct (patch_last _ _ _) as [stack'|]; [|done].
      injection Hout as <-. by apply current_add_row_other.
Qed.

Lemma after_other t c q :
  target c ≠ q → get_current_state (after t c) q = get_current_state t q.
Proof.
  intros Hq. unfold after.
  destruct (outcome t c) as [t'|] eqn:Hout; [|done].
  by apply (outcome_other t c).
Qed.

(** X6: a call of [AgentState] for one project leaves the log of every
    other project as it was, and with it what the readers return for
    them. *)
Theorem call_leaves_other_projects t c q :
  target c ≠ q →
  get_current_state (after t c) q = get_current_state t q ∧
  get_latest_state (after t c) q = get_latest_state t q ∧
  is_agent_active (after t c) q = is_agent_active t q ∧
  is_agent_completed (after t c) q = is_agent_completed t q ∧
  get_latest_token_usage (after t c) q = get_latest_token_usage t q.
Proof.
  intros Hq. pose proof (after_other t c q Hq) as Hcur.
  split; [done|].
  assert (Hrow : ∀ t1 t2,
            get_current_state t1 q = get_current_state t2 q →
            (snd <$> first t1 q) ≫= (λ r, Some (state_stack_json r))
            = (snd <$> first t2 q) ≫= (λ r, Some (state_stack_json r))).
  { intros t1 t2. unfold get_current_state.
    by destruct (first t1 q) as [[??]|], (first t2 q) as [[??]|]. }
  specialize (Hrow _ _ Hcur).
  unfold get_latest_state, is_agent_active, is_agent_completed,
    get_latest_token_usage.
  destruct (first (after t c) q) as [[i1 r1]|], (first t q) as [[i2 r2]|];
    simpl in Hrow; simplify_eq; by rewrite ?Hrow.
Qed.

Lemma call_leaves_other_projects_witness :
  target (SetAgentCompleted Samples.now "Other" true) ≠ "Demo" ∧
  get_current_state
    (after Samples.one_snapshot (SetAgentCompleted Samples.now "Other" true))
    "Demo"
  = get_current_state Samples.one_snapshot "Demo".
Proof.
  split; [discriminate|].
  apply (call_leaves_other_projects Samples.one_snapshot
           (SetAgentCompleted Samples.now "Other" true) "Demo").
  discriminate.
Defined.

Lemma snoc_keeps_earlier init (old new : json) i :
  S i < length (init ++ [old]) → (init ++ [new]) !! i = (init ++ [old]) !! i.
Proof.
  rewrite length_app. simpl. intros Hi.
  rewrite !lookup_app_l by lia. done.
Qed.

(** X7: no call other than [delete_state] shortens a log or touches a
    snapshot before the last one: after the call the log is still there, at
    least as long, and equal to the old one at every place but the last. *)
Theorem log_is_never_truncated t c q stack :
  is_delete c = false →
  get_current_state t q = Some stack →
  ∃ stack',
    get_current_state (after t c) q = Some stack' ∧
    length stack ≤ length stack' ∧
    ∀ i, S i < length stack → stack' !! i = stack !! i.
Proof.
  intros Hdel Hcur.
  destruct (decide (target c = q)) as [Hq|Hq].
  2: { exists stack. by rewrite (after_other t c q Hq). }
  unfold after. destruct (outcome t c) as [t'|] eqn:Hout; [|by exists stack].
  destruct (current_Some_first _ _ _ Hcur) as (i & r & Hf & Hr).
  destruct c as [p|p state|p state|now p b|now p b|now p k];
    simpl in Hout, Hq, Hdel; [done|subst p..].
  - unfold add_to_current_state in Hout. rewrite Hf, Hr in Hout.
    injection Hout as <-. exists (stack ++ [state]).
    split; [by apply current_commit|]. rewrite length_app.
    split; [lia|]. intros j Hj. by rewrite lookup_app_l by lia.
  - destruct (update_latest_state_Ok _ _ _ _ Hout) as [init Hcur'].
    unfold update_latest_state in Hout. rewrite Hf, Hr in Hout.
    destruct (set_last_item stack state) as [stack'|] eqn:Hset; [|done].
    injection Hout as <-.
    apply set_last_item_Ok in Hset as (init' & old & -> & ->).
    exists (init' ++ [state]). split; [by apply current_commit|].
    split; [rewrite !length_app; simpl; lia|apply snoc_keeps_earlier].
  - destruct (patch_row_Ok t q "agent_is_active" (JBool b) t' _ now
                eq_refl Hout) as (init & d & Hcur' & Hold).
    rewrite Hcur in Hold. clear Hr. subst stack.
    eexists. split; [exact Hcur'|].
    split; [rewrite !length_app; simpl; lia|apply snoc_keeps_earlier].
  - destruct (patch_row_Ok t q "completed" (JBool b) t' _ now
                eq_refl Hout) as (init & d & Hcur' & Hold).
    rewrite Hcur in Hold. clear Hr. subst stack.
    eexists. split; [exact Hcur'|].
    split; [rewrite !length_app; simpl; lia|apply snoc_keeps_earlier].
  - unfold update_token_usage in Hout. rewrite Hf, Hr in Hout.
    destruct (last_item stack) as [top|]; [|done]. simpl in Hout.
    destruct (getitem top _) as [old|]; [|done]. simpl in Hout.
    destruct (add_int old k) as [new|]; [|done]. simpl in Hout.
    destruct (patch_last _ _ _) as [stack'|] eqn:Hp; [|done].
    injection Hout as <-.
    apply patch_last_Ok in Hp as (init & d & -> & ->).
    eexists. split; [by apply current_commit|].
    split; [rewrite !length_app; simpl; lia|apply snoc_keeps_earlier].
Qed.

Lemma log_is_never_truncated_witness :
  is_delete (UpdateLatestState "Demo" JNull) = false ∧
  get_current_state Samples.one_snapshot "Demo"
    = Some [new_state Samples.now] ∧
  ∃ stack',
    get_current_state
      (after Samples.one_snapshot (UpdateLatestState "Demo" JNull)) "Demo"
    = Some stack' ∧
    length [new_state Samples.now] ≤ length stack' ∧
    ∀ i, S i < length [new_state Samples.now] →
         stack' !! i = [new_state Samples.now] !! i.
Proof.
  split; [reflexivity|]. split; [reflexivity|].
  apply (log_is_never_truncated Samples.one_snapshot
           (UpdateLatestState "Demo" JNull) "Demo" [new_state Samples.now]);
    reflexivity.
Defined.

End StateFrames.

(** ** The browser's snapshots *)

Section BrowserSnapshots.

Import AgentState History.

Implicit Types (t : table) (p q : string).

(** The session that a screenshot records. *)
Local Abbreviation session page_url path :=
  (JDict (list_to_map [("url", JStr page_url); ("screenshot", JStr path)])).

Lemma add_to_current_state_returns t p state :
  ∃ t', add_to_current_state t p state = Ok t'.
Proof.
  unfold add_to_current_state. destruct (first t p) as [[i r]|]; by eexists.
Qed.

Lemma add_then_latest t p state t' :
  add_to_current_state t p state = Ok t' → get_latest_state t' p = Ok state.
Proof.
  unfold add_to_current_state.
  destruct (first t p) as [[i r]|] eqn:Hf; intros [= <-].
  - apply latest_state_snoc with (state_stack_json r).
    by apply current_commit.
  - apply latest_state_snoc with []. by apply current_add_row.
Qed.

Lemma screenshot_state_value now page_url path :
  Browser.screenshot_state now page_url path
  = Ok (JDict (list_to_map [
      ("internal_monologue", JStr "Browsing the web right now...");
      ("browser_session", session page_url path);
      ("terminal_session",
         JDict (list_to_map [("command", JNull); ("output", JNull);
                             ("title", JNull)]));
      ("step", JNull);
      ("message", JNull);
      ("completed", JBool false);
      ("agent_is_active", JBool true);
      ("token_usage", JInt 0);
      ("timestamp", JStr now)])).
Proof. reflexivity. Qed.

Lemma screenshot_Ok now dir page_url name t p :
  ∃ t' snapshot,
    Browser.screenshot now dir page_url name t p
      = Ok (t', Posixpath.join dir (name +:+ ".png")) ∧
    add_to_current_state t p snapshot = Ok t' ∧
    field snapshot "browser_session"
      = Some (session page_url (Posixpath.join dir (name +:+ ".png"))) ∧
    field snapshot "internal_monologue"
      = Some (JStr "Browsing the web right now...") ∧
    field snapshot "terminal_session"
      = Some (JDict (list_to_map [("command", JNull); ("output", JNull);
                                  ("title", JNull)])) ∧
    field snapshot "token_usage" = Some (JInt 0) ∧
    field snapshot "completed" = Some (JBool false) ∧
    field snapshot "agent_is_active" = Some (JBool true).
Proof.
  unfold Browser.screenshot. rewrite screenshot_state_value.
  match goal with
  | |- context [Ok ?s ≫= _] =>
      destruct (add_to_current_state_returns t p s) as [t' Hadd];
      exists t', s
  end.
  change (Ok ?s ≫= ?f) with (f s). cbv beta. rewrite Hadd.
  repeat split; reflexivity.
Qed.

(** X8: [Browser.screenshot] returns the path of [<random name>.png] in
    the screenshots directory and appends one snapshot to the project's log,
    creating the log if there is none.  The snapshot is the default one,
    stamped with the current time, with the browsing monologue and with the
    page's address and that path as its browser session, and nothing else
    changed; so afterwards the latest token usage reads 0, the completed
    flag false and the active flag true, whatever they were before.  Other
    projects are untouched. *)
Theorem screenshot_appends_default_snapshot now dir page_url name t p :
  let path := Posixpath.join dir (name +:+ ".png") in
  let snapshot :=
    JDict (list_to_map [
      ("internal_monologue", JStr "Browsing the web right now...");
      ("browser_session",
         JDict (list_to_map [("url", JStr page_url);
                             ("screenshot", JStr path)]));
      ("terminal_session",
         JDict (list_to_map [("command", JNull); ("output", JNull);
                             ("title", JNull)]));
      ("step", JNull);
      ("message", JNull);
      ("completed", JBool false);
      ("agent_is_active", JBool true);
      ("token_usage", JInt 0);
      ("timestamp", JStr now)]) in
  ∃ t',
    Browser.screenshot now dir page_url name t p = Ok (t', path) ∧
    get_current_state t' p
      = Some (default [] (get_current_state t p) ++ [snapshot]) ∧
    get_latest_state t' p = Ok snapshot ∧
    get_latest_token_usage t' p = Ok (JInt 0) ∧
    is_agent_completed t' p = Ok (JBool false) ∧
    is_agent_active t' p = Ok (JBool true) ∧
    ∀ q, q ≠ p → get_current_state t' q = get_current_state t q.
Proof.
  intros path snapshot. unfold Browser.screenshot.
  rewrite screenshot_state_value. fold path. fold snapshot.
  destruct (add_to_current_state_returns t p snapshot) as [t' Hadd].
  exists t'. change (Ok ?s ≫= ?f) with (f s). cbv beta. rewrite Hadd.
  split; [reflexivity|].
  assert (Hcur : get_current_state t' p
                 = Some (default [] (get_current_state t p) ++ [snapshot])).
  { unfold add_to_current_state in Hadd.
    destruct (first t p) as [[i r]|] eqn:Hf; injection Hadd as <-.
    - rewrite (first_Some_current _ _ _ _ Hf). by apply current_commit.
    - unfold get_current_state at 2. rewrite Hf. by apply current_add_row. }
  split; [exact Hcur|]. split; [by apply (add_then_latest t)|].
  destruct (readers_snoc _ _ _ _ Hcur) as (-> & -> & ->).
  repeat split; try reflexivity.
  intros q Hq.
  apply (outcome_other t (AddToCurrentState p snapshot) q t' Hadd).
  simpl. congruence.
Qed.

(** X9: after a screenshot the routes [get_browser_session] and
    [get_terminal_session] answer with the session recorded, the page's
    address with the path of the image, and with the empty terminal
    session; for a project without any state both answer with [None]. *)
Theorem browser_session_route_after_screenshot :
  (∀ now dir page_url name w p t' path,
     Browser.screenshot now dir page_url name (Devika.agent_state w) p
       = Ok (t', path) →
     let w' := {| Devika.projects := Devika.projects w;
                  Devika.agent_state := t';
                  Devika.threads := Devika.threads w |} in
     Devika.get_browser_session w' p
       = Ok (JDict {[ "session" := session page_url path ]}) ∧
     Devika.get_terminal_session w' p
       = Ok (JDict {[ "terminal_state" :=
              JDict (list_to_map [("command", JNull); ("output", JNull);
                                  ("title", JNull)]) ]})) ∧
  (∀ w p,
     get_current_state (Devika.agent_state w) p = None →
     Devika.get_browser_session w p = Ok (JDict {[ "session" := JNull ]}) ∧
     Devika.get_terminal_session w p
       = Ok (JDict {[ "terminal_state" := JNull ]})).
Proof.
  split.
  - intros now dir page_url name w p t' path Hshot w'.
    destruct (screenshot_Ok now dir page_url name (Devika.agent_state w) p)
      as (t'' & snapshot & Hshot' & Hadd & Hsession & _ & Hterm & Hu & _).
    rewrite Hshot' in Hshot. injection Hshot as <- <-.
    pose proof (add_then_latest _ _ _ _ Hadd) as Hlatest.
    unfold Devika.get_browser_session, Devika.get_terminal_session. simpl.
    rewrite Hlatest. simpl.
    destruct snapshot as [| | | | |d]; try done. simpl in *.
    assert (d ≠ ∅) as Hd. { intros ->. by rewrite lookup_empty in Hu. }
    rewrite (bool_decide_eq_false_2 _ Hd). simpl.
    by rewrite Hsession, Hterm.
  - intros w p Hnone. apply current_None_first in Hnone.
    unfold Devika.get_browser_session, Devika.get_terminal_session,
      get_latest_state. by rewrite Hnone.
Qed.

End BrowserSnapshots.

(** ** The message log as a whole *)

Section MessageRoles.

Import ProjectManager.

Implicit Types (t above below : table) (p q : string)
  (messages before after : list json) (m : json).

Lemma first_of_split above r below p :
  Forall (λ x, project x ≠ p) above → project r = p →
  first (above ++ r :: below) p = Some (length above, r).
Proof.
  intros Hbefore Hr. unfold first.
  induction Hbefore as [|x above Hx _ IH]; simpl.
  - by rewrite decide_True.
  - rewrite decide_False by done. by rewrite IH.
Qed.

Lemma first_skips above below p :
  Forall (λ x, project x ≠ p) above →
  snd <$> first (above ++ below) p = snd <$> first below p.
Proof.
  intros Hbefore. unfold first.
  induction Hbefore as [|x above Hx _ IH]; [done|]. simpl.
  rewrite decide_False by done.
  destruct (list_find _ (above ++ below)) as [[??]|],
    (list_find (λ r, project r = p) below) as [[??]|];
    simpl in *; by simplify_eq.
Qed.

Lemma messages_of_first t1 t2 p :
  snd <$> first t1 p = snd <$> first t2 p →
  get_messages t1 p = get_messages t2 p.
Proof.
  unfold get_messages.
  destruct (first t1 p) as [[??]|], (first t2 p) as [[??]|];
    simpl; intros; by simplify_eq.
Qed.

(** X10: [delete_project] removes the first row of the name and no other
    row: where a name has a second row, as [create_project] makes one, the
    project is still there below the deletion and its messages are those of
    that next row.  A name without a row leaves the table as it is. *)
Theorem delete_project_removes_first_row_only above r below p :
  Forall (λ x, project x ≠ p) above → project r = p →
  get_messages (above ++ r :: below) p = Some (message_stack_json r) ∧
  delete_project (above ++ r :: below) p = above ++ below ∧
  get_messages (above ++ below) p = get_messages below p ∧
  delete_project above p = above.
Proof.
  intros Hbefore Hr.
  pose proof (first_of_split above r below p Hbefore Hr) as Hf.
  split; [unfold get_messages; by rewrite Hf|]. split; [|split].
  - unfold delete_project. rewrite Hf. clear Hf.
    induction above as [|x above IH]; [done|]. simpl.
    f_equal. apply IH. by inversion Hbefore.
  - apply messages_of_first. by apply first_skips.
  - unfold delete_project, first.
    by rewrite (proj2 (list_find_None _ _) Hbefore).
Qed.

Lemma delete_project_removes_first_row_only_witness :
  Forall (λ x, project x ≠ "Demo") [] ∧
  project {| project := "Demo"; message_stack_json := [Samples.hello] |}
    = "Demo" ∧
  delete_project
    ([] ++ {| project := "Demo"; message_stack_json := [Samples.hello] |}
        :: Samples.demo_created) "Demo"
  = [] ++ Samples.demo_created ∧
  get_messages ([] ++ Samples.demo_created) "Demo"
  = get_messages Samples.demo_created "Demo".
Proof.
  split; [constructor|]. split; [reflexivity|].
  destruct (delete_project_removes_first_row_only []
              {| project := "Demo"; message_stack_json := [Samples.hello] |}
              Samples.demo_created "Demo" (Forall_nil_2 _) eq_refl)
    as (_ & Hdel & Hget & _).
  split; [exact Hdel|exact Hget].
Defined.

Lemma getitem_field m key v : field m key = Some v → getitem m key = Ok v.
Proof. destruct m as [| | | | |d]; try done. simpl. by intros ->. Qed.

(** The scan from the tail: it passes the messages that fail the test and
    stops at the first that passes it. *)
Lemma latest_where_found test before m after v :
  field m "from_devika" = Some v → test v = true →
  Forall (λ x, ∃ w, field x "from_devika" = Some w ∧ test w = false) after →
  latest_where test (reverse (before ++ m :: after)) = Ok (Some m).
Proof.
  intros Hm Hv Hafter. rewrite reverse_app, reverse_cons, <- app_assoc.
  apply Forall_reverse in Hafter.
  induction Hafter as [|x rest (w & Hx & Hw) _ IH]; simpl.
  - rewrite (getitem_field _ _ _ Hm). simpl. by rewrite Hv.
  - rewrite (getitem_field _ _ _ Hx). simpl. by rewrite Hw.
Qed.

Lemma latest_where_none test messages :
  Forall (λ x, ∃ w, field x "from_devika" = Some w ∧ test w = false)
    messages →
  latest_where test (reverse messages) = Ok None.
Proof.
  intros Hall. apply Forall_reverse in Hall.
  induction Hall as [|x rest (w & Hx & Hw) _ IH]; simpl; [done|].
  rewrite (getitem_field _ _ _ Hx). simpl. by rewrite Hw.
Qed.

(** X11: [get_latest_message_from_user] returns the last message of the
    log whose [from_devika] is falsy, given that every later message
    carries a truthy one, whatever comes before it; it returns [None] for a
    log in which every message is the agent's and for a project without a
    row.  [get_latest_message_from_devika] is the same with the roles
    exchanged. *)
Theorem latest_message_is_last_of_role t p :
  (∀ before m after v,
     get_messages t p = Some (before ++ m :: after) →
     field m "from_devika" = Some v → truthy v = false →
     Forall (λ x, ∃ w, field x "from_devika" = Some w ∧ truthy w = true)
       after →
     get_latest_message_from_user t p = Ok (Some m)) ∧
  (∀ before m after v,
     get_messages t p = Some (before ++ m :: after) →
     field m "from_devika" = Some v → truthy v = true →
     Forall (λ x, ∃ w, field x "from_devika" = Some w ∧ truthy w = false)
       after →
     get_latest_message_from_devika t p = Ok (Some m)) ∧
  (∀ messages,
     get_messages t p = Some messages →
     Forall (λ x, ∃ w, field x "from_devika" = Some w ∧ truthy w = true)
       messages →
     get_latest_message_from_user t p = Ok None) ∧
  (get_messages t p = None →
   get_latest_message_from_user t p = Ok None ∧
   get_latest_message_from_devika t p = Ok None).
Proof.
  split; [|split; [|split]].
  - intros before m after v Hget Hm Hv Hafter.
    destruct (messages_Some_first _ _ _ Hget) as (i & r & Hf & Hr).
    unfold get_latest_message_from_user. rewrite Hf, Hr.
    apply latest_where_found with v; [done|by rewrite Hv|].
    eapply Forall_impl; [exact Hafter|].
    intros x (w & Hx & Hw). exists w. by rewrite Hw.
  - intros before m after v Hget Hm Hv Hafter.
    destruct (messages_Some_first _ _ _ Hget) as (i & r & Hf & Hr).
    unfold get_latest_message_from_devika. rewrite Hf, Hr.
    by apply latest_where_found with v.
  - intros messages Hget Hall.
    destruct (messages_Some_first _ _ _ Hget) as (i & r & Hf & Hr).
    unfold get_latest_message_from_user. rewrite Hf, Hr.
    apply latest_where_none. eapply Forall_impl; [exact Hall|].
    intros x (w & Hx & Hw). exists w. by rewrite Hw.
  - intros Hnone. apply messages_None_first in Hnone.
    unfold get_latest_message_from_user, get_latest_message_from_devika.
    by rewrite Hnone.
Qed.

End MessageRoles.

Section MessageAppends.

Import ProjectManager.

Implicit Types (t : table) (p q : string) (messages : list json) (m : json).

(** The message that [add_message_from_devika] appends. *)
Local Abbreviation agent_message now message :=
  (JDict (<["message" := message]>
            (list_to_map [("from_devika", JBool true);
                          ("message", JNull);
                          ("timestamp", JStr now)]))).

Lemma add_message_from_user_built now t p message :
  add_message_from_user now t p message
  = add_message_to_project t p (Devika.user_message now message).
Proof. reflexivity. Qed.

Lemma add_message_from_devika_built now t p message :
  add_message_from_devika now t p message
  = add_message_to_project t p (agent_message now message).
Proof. reflexivity. Qed.

Lemma validate_of_messages t p messages m :
  get_messages t p = Some (messages ++ [m]) →
  validate_last_message_is_from_user t p
  = (v ← getitem m "from_devika"; Ok (negb (truthy v))).
Proof.
  intros Hget. destruct (messages_Some_first _ _ _ Hget) as (i & r & Hf & Hr).
  unfold validate_last_message_is_from_user. by rewrite Hf, Hr, last_snoc.
Qed.

Lemma latest_of_messages t p messages :
  get_messages t p = Some messages →
  get_latest_message_from_user t p
    = latest_where (λ v, negb (truthy v)) (reverse messages) ∧
  get_latest_message_from_devika t p
    = latest_where truthy (reverse messages).
Proof.
  intros Hget. destruct (messages_Some_first _ _ _ Hget) as (i & r & Hf & Hr).
  unfold get_latest_message_from_user, get_latest_message_from_devika.
  by rewrite Hf, Hr.
Qed.

Lemma latest_of_default t p :
  get_latest_message_from_user t p
    = latest_where (λ v, negb (truthy v))
        (reverse (default [] (get_messages t p))) ∧
  get_latest_message_from_devika t p
    = latest_where truthy (reverse (default [] (get_messages t p))).
Proof.
  destruct (get_messages t p) as [messages|] eqn:Hget.
  - by apply latest_of_messages.
  - apply messages_None_first in Hget.
    unfold get_latest_message_from_user, get_latest_message_from_devika.
    by rewrite Hget.
Qed.

(** X12: [add_message_from_user] returns, and after it the last message is
    the user's ([validate_last_message_is_from_user] is true), the latest
    message from the user is the one added, and the latest message from the
    agent is what it was; [add_message_from_devika] is the mirror image.  On
    a project without a row or without messages the validation is false. *)
Theorem appended_message_is_latest_of_its_role now t p message :
  (∃ t',
     add_message_from_user now t p message = Ok t' ∧
     validate_last_message_is_from_user t' p = Ok true ∧
     get_latest_message_from_user t' p
       = Ok (Some (Devika.user_message now message)) ∧
     get_latest_message_from_devika t' p
       = get_latest_message_from_devika t p) ∧
  (∃ t',
     add_message_from_devika now t p message = Ok t' ∧
     validate_last_message_is_from_user t' p = Ok false ∧
     get_latest_message_from_devika t' p
       = Ok (Some (agent_message now message)) ∧
     get_latest_message_from_user t' p
       = get_latest_message_from_user t p) ∧
  (get_messages t p = None ∨ get_messages t p = Some [] →
   validate_last_message_is_from_user t p = Ok false).
Proof.
  split; [|split].
  - rewrite add_message_from_user_built.
    destruct (add_message_appends t p (Devika.user_message now message))
      as (t' & -> & Hget).
    exists t'. split; [done|].
    rewrite (validate_of_messages _ _ _ _ Hget).
    destruct (latest_of_messages _ _ _ Hget) as [-> ->].
    rewrite (proj2 (latest_of_default t p)), reverse_snoc.
    repeat split; reflexivity.
  - rewrite add_message_from_devika_built.
    destruct (add_message_appends t p (agent_message now message))
      as (t' & -> & Hget).
    exists t'. split; [done|].
    rewrite (validate_of_messages _ _ _ _ Hget).
    destruct (latest_of_messages _ _ _ Hget) as [-> ->].
    rewrite (proj1 (latest_of_default t p)), reverse_snoc.
    repeat split; reflexivity.
  - unfold validate_last_message_is_from_user, get_messages.
    intros [Hget|Hget]; destruct (first t p) as [[i r]|]; try done.
    injection Hget as ->. done.
Qed.

Lemma collect_snoc {A B : Type} (f : A → result B) (l : list A) (a : A)
    (bs : list B) (b : B) :
  collect f l = Ok bs → f a = Ok b → collect f (l ++ [a]) = Ok (bs ++ [b]).
Proof.
  revert bs. induction l as [|x l IH]; intros bs Hl Ha; simpl in *.
  - injection Hl as <-. by rewrite Ha.
  - destruct (f x) as [y|]; [|done]. simpl in *.
    destruct (collect f l) as [ys|]; [|done]. simpl in *.
    injection Hl as <-. by rewrite (IH ys eq_refl Ha).
Qed.

Lemma formatted_of_default str t p :
  get_all_messages_formatted str t p
  = collect (format_message str) (default [] (get_messages t p)).
Proof.
  unfold get_all_messages_formatted, get_messages.
  by destruct (first t p) as [[i r]|].
Qed.

(** X13: the formatted transcript grows with the log: where
    [get_all_messages_formatted] returns the lines of a log, it returns,
    after [add_message_from_user], those lines followed by ["User: "] and the
    text, and after [add_message_from_devika] those lines followed by
    ["Devika: "] and the text.  For a project without a row it returns the
    empty list. *)
Theorem formatted_transcript_grows str now t p message lines :
  get_all_messages_formatted str t p = Ok lines →
  (∃ t',
     add_message_from_user now t p message = Ok t' ∧
     get_all_messages_formatted str t' p
       = Ok (lines ++ ["User: " +:+ str message])) ∧
  (∃ t',
     add_message_from_devika now t p message = Ok t' ∧
     get_all_messages_formatted str t' p
       = Ok (lines ++ ["Devika: " +:+ str message])) ∧
  (get_messages t p = None → lines = []).
Proof.
  intros Hlines. rewrite formatted_of_default in Hlines.
  split; [|split].
  - rewrite add_message_from_user_built.
    destruct (add_message_appends t p (Devika.user_message now message))
      as (t' & -> & Hget).
    exists t'. split; [done|]. rewrite formatted_of_default, Hget. simpl.
    by apply collect_snoc.
  - rewrite add_message_from_devika_built.
    destruct (add_message_appends t p (agent_message now message))
      as (t' & -> & Hget).
    exists t'. split; [done|]. rewrite formatted_of_default, Hget. simpl.
    by apply collect_snoc.
  - intros Hnone. rewrite Hnone in Hlines. by injection Hlines.
Qed.

Lemma formatted_transcript_grows_witness :
  get_all_messages_formatted
    (λ v, match v with JStr s => s | _ => "" end) [] "Demo" = Ok [] ∧
  ∃ t',
    add_message_from_user Samples.now [] "Demo" (JStr "hello") = Ok t' ∧
    get_all_messages_formatted
      (λ v, match v with JStr s => s | _ => "" end) t' "Demo"
    = Ok ([] ++ ["User: " +:+ "hello"]).
Proof.
  split; [reflexivity|].
  apply (proj1 (formatted_transcript_grows
                  (λ v, match v with JStr s => s | _ => "" end)
                  Samples.now [] "Demo" (JStr "hello") [] eq_refl)).
Defined.

End MessageAppends.

(** ** The coordinator as a whole *)

Section Routes.

Import Devika.

(** X14: [send_message] stores the user's message in every case, at the end
    of the project's log, and touches neither the execution state nor the
    messages of other projects.  What it answers and whether it starts a
    thread goes by the completion query: a truthy flag starts one resume
    thread, a falsy one starts none, and where the query raises, the route
    raises the same exception after the message has been stored. *)
Theorem send_message_always_stores now w message p base_model :
  let w' := (send_message now w message p base_model).1 in
  let answer := (send_message now w message p base_model).2 in
  ProjectManager.get_messages (projects w') p
    = Some (default [] (ProjectManager.get_messages (projects w) p)
            ++ [user_message now message]) ∧
  agent_state w' = agent_state w ∧
  (∀ q, q ≠ p →
     ProjectManager.get_messages (projects w') q
     = ProjectManager.get_messages (projects w) q) ∧
  match AgentState.is_agent_completed (agent_state w) p with
  | Ok completed =>
      answer = Ok (response "Message sent") ∧
      threads w' =
        if truthy completed
        then threads w ++ [SubsequentExecute base_model message p]
        else threads w
  | Raise e => answer = Raise e ∧ threads w' = threads w
  end.
Proof.
  unfold send_message. rewrite user_message_built.
  destruct (add_message_appends (projects w) p (user_message now message))
    as (t' & Hadd & Hget).
  rewrite Hadd.
  assert (Hother : ∀ q, q ≠ p →
            ProjectManager.get_messages t' q
            = ProjectManager.get_messages (projects w) q).
  { intros q Hq. by apply (add_message_other _ p q _ _ Hadd). }
  destruct (AgentState.is_agent_completed (agent_state w) p) as [v|e];
    [destruct (truthy v)|]; simpl; done.
Qed.

End Routes.
(** ** Project directories *)

Section ProjectDirectories.

Import Posixpath FileSystem ProjectManager.

Lemma normalise_char_idempotent (c : ascii) :
  let g := λ c, if bool_decide (lower_char c = " "%char) then "-"%char
                else lower_char c in
  g (g c) = g c.
Proof.
  destruct c as [[] [] [] [] [] [] [] []]; reflexivity.
Qed.

Lemma normalised_char_plain (c : ascii) :
  let c' := if bool_decide (lower_char c = " "%char) then "-"%char
            else lower_char c in
  c' ≠ " "%char ∧ (65 <=? nat_of_ascii c') && (nat_of_ascii c' <=? 90) = false.
Proof.
  destruct c as [[] [] [] [] [] [] [] []]; split; (discriminate || reflexivity).
Qed.

Lemma normalised_char_isascii (c : ascii) :
  (nat_of_ascii c <? 128) = true →
  (nat_of_ascii (if bool_decide (lower_char c = " "%char) then "-"%char
                 else lower_char c) <? 128) = true.
Proof.
  destruct c as [[] [] [] [] [] [] [] []]; (discriminate || reflexivity).
Qed.

Lemma normalise_idempotent (s : string) :
  replace_space_hyphen (ascii_lower (replace_space_hyphen (ascii_lower s)))
  = replace_space_hyphen (ascii_lower s).
Proof.
  induction s as [|c s IH]; [done|]. simpl. rewrite IH. f_equal.
  apply (normalise_char_idempotent c).
Qed.

Lemma normalised_chars (s : string) (c : ascii) :
  In c (String.list_ascii_of_string (replace_space_hyphen (ascii_lower s))) →
  c ≠ " "%char ∧ (65 <=? nat_of_ascii c) && (nat_of_ascii c <=? 90) = false.
Proof.
  induction s as [|c0 s IH]; [done|]. simpl.
  intros [<-|Hin]; [apply (normalised_char_plain c0)|by apply IH].
Qed.

Lemma normalised_isascii (s : string) :
  isascii s = true → isascii (replace_space_hyphen (ascii_lower s)) = true.
Proof.
  induction s as [|c s IH]; [done|]. simpl.
  intros [Hc Hs]%andb_prop. apply andb_true_intro.
  split; [by apply normalised_char_isascii|by apply IH].
Qed.

(** X15: for a project name of ASCII characters, on which [str.lower] is
    [ascii_lower], the directory of the project depends on the name only up
    to the case of its letters and to spaces against hyphens: the name of
    the directory holds no space and no capital letter, normalising it again
    changes nothing, and so the project named by its directory name has the
    same directory and the same archive, in [ProjectManager] and in
    [ReadCode]. *)
Theorem project_directory_is_normalised lower projects_dir project :
  (∀ s, isascii s = true → lower s = ascii_lower s) →
  isascii project = true →
  let name := replace_space_hyphen (lower project) in
  (∀ c, In c (String.list_ascii_of_string name) →
        c ≠ " "%char ∧
        (65 <=? nat_of_ascii c) && (nat_of_ascii c <=? 90) = false) ∧
  replace_space_hyphen (lower name) = name ∧
  get_project_path lower projects_dir name
    = get_project_path lower projects_dir project ∧
  get_zip_path lower projects_dir name
    = get_zip_path lower projects_dir project ∧
  ReadCode.directory_path (ReadCode.init lower projects_dir name)
    = get_project_path lower projects_dir project.
Proof.
  intros Hlower Hascii name.
  assert (Hname : name = replace_space_hyphen (ascii_lower project)).
  { unfold name. by rewrite Hlower. }
  assert (Hagain : replace_space_hyphen (lower name) = name).
  { rewrite Hname, Hlower by by apply normalised_isascii.
    apply normalise_idempotent. }
  split; [rewrite Hname; apply normalised_chars|].
  split; [exact Hagain|].
  unfold get_zip_path, get_project_path, ReadCode.init. simpl.
  fold name. by rewrite !Hagain.
Qed.

Lemma project_directory_is_normalised_witness :
  get_project_path ascii_lower "data/projects" "my-project"
  = get_project_path ascii_lower "data/projects" "My Project".
Proof.
  apply (project_directory_is_normalised ascii_lower "data/projects"
           "My Project" (λ s _, eq_refl) eq_refl).
Defined.

End ProjectDirectories.

(** ** The archive of any directory *)

Section ArchiveOfDirectory.

Import Posixpath FileSystem ProjectManager.



End ArchiveOfDirectory.


(** ** The web search *)

Section Search.

Import BingSearch.

(** X17: [search] never raises: a failure of the request comes back as the
    value returned and leaves the stored result as it was, so that
    [get_first_link] still returns the first link of the last search that
    succeeded.  After a search that succeeds, [get_first_link] returns the
    address of the first entry of [webPages.value], and raises [IndexError]
    where that list is empty; before any search it raises [TypeError]. *)
Theorem failed_search_keeps_last_result :
  get_first_link init = Raise TypeError ∧
  (∀ self e,
     (search self (Raise e)).2 = inr e ∧
     get_first_link (search self (Raise e)).1 = get_first_link self) ∧
  (∀ self document web_pages first rest url,
     field document "webPages" = Some web_pages →
     field web_pages "value" = Some (JList (first :: rest)) →
     field first "url" = Some url →
     (search self (Ok document)).2 = inl document ∧
     get_first_link (search self (Ok document)).1 = Ok url ∧
     ∀ e, get_first_link
            (search (search self (Ok document)).1 (Raise e)).1 = Ok url) ∧
  (∀ self document web_pages,
     field document "webPages" = Some web_pages →
     field web_pages "value" = Some (JList []) →
     get_first_link (search self (Ok document)).1 = Raise IndexError).
Proof.
  split; [done|]. split; [done|]. split.
  - intros self document web_pages first rest url Hweb Hvalue Hurl.
    assert (Hlink : get_first_link {| query_result := document |} = Ok url).
    { unfold get_first_link. simpl.
      rewrite (getitem_field _ _ _ Hweb). simpl.
      rewrite (getitem_field _ _ _ Hvalue). simpl.
      by apply getitem_field. }
    done.
  - intros self document web_pages Hweb Hvalue.
    unfold get_first_link. simpl.
    rewrite (getitem_field _ _ _ Hweb). simpl.
    by rewrite (getitem_field _ _ _ Hvalue).
Qed.

End Search.

(** ** The configuration *)

Section Configuration.

Import Config.

Implicit Types (c : config) (e : environ) (table : gmap string json).

Lemma lookup2_Some c section key table value :
  c !! section = Some (JDict table) → table !! key = Some value →
  lookup2 c section key = Ok value.
Proof. intros Hs Hk. unfold lookup2. simpl. rewrite Hs. simpl. by rewrite Hk. Qed.

Lemma lookup2_no_section c section key :
  c !! section = None → lookup2 c section key = Raise KeyError.
Proof. intros Hs. unfold lookup2. simpl. by rewrite Hs. Qed.

Lemma lookup2_no_key c section key table :
  c !! section = Some (JDict table) → table !! key = None →
  lookup2 c section key = Raise KeyError.
Proof. intros Hs Hk. unfold lookup2. simpl. rewrite Hs. simpl. by rewrite Hk. Qed.

Lemma getter_is_env_or_config name section key getter :
  (name, section, key, getter) ∈ getters →
  getter = λ e c, env_or_config e c name section key.
Proof.
  unfold getters. rewrite !elem_of_cons, elem_of_nil.
  intros H. repeat (destruct H as [[= -> -> -> ->]|H]; [reflexivity|]).
  done.
Qed.


(** X18: each getter of [Config] reads its value from the configuration
    file before it looks at the environment: it returns the environment
    variable where that is set and the value of the file otherwise, but
    raises [KeyError] where the file lacks the section or the key, also
    when the environment variable is set. *)
Theorem getter_needs_the_file_entry name section key getter e c :
  (name, section, key, getter) ∈ getters →
  (∀ table value,
     c !! section = Some (JDict table) → table !! key = Some value →
     getter e c = Ok (default value (JStr <$> e !! name))) ∧
  (c !! section = None → getter e c = Raise KeyError) ∧
  (∀ table,
     c !! section = Some (JDict table) → table !! key = None →
     getter e c = Raise KeyError).
Proof.
  intros ->%getter_is_env_or_config. unfold env_or_config, environ_get.
  split; [|split].
  - intros table value Hs Hk. rewrite (lookup2_Some _ _ _ _ _ Hs Hk). simpl.
    by destruct (e !! name).
  - intros Hs. by rewrite lookup2_no_section.
  - intros table Hs Hk. by rewrite (lookup2_no_key _ _ _ _ Hs Hk).
Qed.

Lemma getter_needs_the_file_entry_witness :
  ("PROJECTS_DIR", "STORAGE", "PROJECTS_DIR", get_projects_dir) ∈ getters ∧
  (∅ : config) !! "STORAGE" = None ∧
  get_projects_dir {[ "PROJECTS_DIR" := "/srv/projects" ]} ∅
  = Raise KeyError.
Proof.
  assert (Hin : ("PROJECTS_DIR", "STORAGE", "PROJECTS_DIR", get_projects_dir)
                ∈ getters).
  { unfold getters. do 10 apply list_elem_of_further.
    apply list_elem_of_here. }
  split; [exact Hin|]. split; [apply lookup_empty|].
  apply (proj1 (proj2 (getter_needs_the_file_entry _ _ _ _
                         {[ "PROJECTS_DIR" := "/srv/projects" ]} ∅ Hin))).
  apply lookup_empty.
Defined.

Lemma store2_Ok c section key value table :
  c !! section = Some (JDict table) →
  store2 c section key value
  = Ok (<[section := JDict (<[key := value]> table)]> c).
Proof. intros Hs. unfold store2. simpl. by rewrite Hs. Qed.

Lemma lookup2_after_store c section key value table section' key' :
  c !! section = Some (JDict table) →
  lookup2 (<[section := JDict (<[key := value]> table)]> c) section' key'
  = if decide (section' = section ∧ key' = key) then Ok value
    else lookup2 c section' key'.
Proof.
  intros Hs. unfold lookup2. simpl.
  destruct (decide (section' = section)) as [->|Hne].
  - rewrite lookup_insert_eq, Hs. simpl.
    destruct (decide (key' = key)) as [->|Hk].
    + rewrite lookup_insert_eq. by rewrite decide_True.
    + rewrite lookup_insert_ne by done. rewrite decide_False; [done|].
      by intros [_ ?].
  - rewrite lookup_insert_ne by done. rewrite decide_False; [done|].
    by intros [? _].
Qed.



(** X20: the logging switches are kept as the strings ["true"] and
    ["false"]: what [set_logging_rest_api] stores reads back through
    [get_logging_rest_api] as the truth value of the argument, and it does
    not change [get_logging_prompts]; a file that holds the boolean [true]
    instead of the string reads as switched off. *)
Theorem logging_switch_is_a_string c table :
  c !! "LOGGING" = Some (JDict table) →
  (∀ value, ∃ c',
     set_logging_rest_api c value = Ok c' ∧
     get_logging_rest_api c' = Ok (truthy value) ∧
     get_logging_prompts c' = get_logging_prompts c) ∧
  (∀ value, ∃ c',
     set_logging_prompts c value = Ok c' ∧
     get_logging_prompts c' = Ok (truthy value) ∧
     get_logging_rest_api c' = get_logging_rest_api c) ∧
  (table !! "LOG_REST_API" = Some (JBool true) →
   get_logging_rest_api c = Ok false).
Proof.
  intros Hs. split; [|split].
  - intros value. unfold set_logging_rest_api.
    rewrite (store2_Ok _ _ _ _ _ Hs). eexists. split; [reflexivity|].
    unfold get_logging_rest_api, get_logging_prompts.
    rewrite !(lookup2_after_store _ _ _ _ _ _ _ Hs).
    rewrite decide_True by done. rewrite decide_False by by intros [_ [=]].
    split; [|done]. simpl. by destruct (truthy value).
  - intros value. unfold set_logging_prompts.
    rewrite (store2_Ok _ _ _ _ _ Hs). eexists. split; [reflexivity|].
    unfold get_logging_rest_api, get_logging_prompts.
    rewrite !(lookup2_after_store _ _ _ _ _ _ _ Hs).
    rewrite decide_True by done. rewrite decide_False by by intros [_ [=]].
    split; [|done]. simpl. by destruct (truthy value).
  - intros Hk. unfold get_logging_rest_api.
    by rewrite (lookup2_Some _ _ _ _ _ Hs Hk).
Qed.

Lemma logging_switch_is_a_string_witness :
  ({[ "LOGGING" := JDict {[ "LOG_REST_API" := JBool true ]} ]} : config)
    !! "LOGGING" = Some (JDict {[ "LOG_REST_API" := JBool true ]}) ∧
  get_logging_rest_api
    {[ "LOGGING" := JDict {[ "LOG_REST_API" := JBool true ]} ]} = Ok false.
Proof.
  split; [apply lookup_singleton_eq|].
  apply (proj2 (proj2 (logging_switch_is_a_string
                         {[ "LOGGING" :=
                              JDict {[ "LOG_REST_API" := JBool true ]} ]}
                         {[ "LOG_REST_API" := JBool true ]}
                         (lookup_singleton_eq _ _)))).
  apply lookup_singleton_eq.
Defined.

(** X21: [set_settings] replaces whole sections of the dictionary of the
    [Config] object: a section of the posted object takes the place of the
    section of that name, with nothing kept of the old one, and the sections
    that the object does not name stay.  So after a post whose section lacks
    a key, the getter of that key raises [KeyError] on that object, whatever
    the file held before; and for a [Config()] made later the load or the
    getter raises, as writing and reading the file invents no entry. *)
Theorem set_settings_replaces_sections c data :
  (∀ section new, data !! section = Some new →
                  set_settings c data !! section = Some new) ∧
  (∀ section, data !! section = None →
              set_settings c data !! section = c !! section) ∧
  (∀ name section key getter e table,
     (name, section, key, getter) ∈ getters →
     data !! section = Some (JDict table) → table !! key = None →
     getter e (set_settings c data) = Raise KeyError ∧
     ∀ toml,
       invents_nothing toml →
       raises (c' ← reopened toml (set_settings c data); getter e c')).
Proof.
  unfold set_settings. split; [|split].
  - intros section new Hd. by apply lookup_union_Some_l.
  - intros section Hd. by apply lookup_union_r.
  - intros name section key getter e table ->%getter_is_env_or_config Hd Hk.
    assert (Hmissing : lookup2 (data ∪ c) section key = Raise KeyError).
    { apply (lookup2_no_key _ section key table); [|done].
      by apply lookup_union_Some_l. }
    unfold env_or_config. split; [by rewrite Hmissing|].
    intros toml Htoml. unfold reopened.
    destruct (toml (data ∪ c)) as [c'|] eqn:Hload; [|done]. simpl.
    destruct (lookup2 c' section key) as [value|] eqn:Hvalue; [|done].
    destruct (Htoml _ _ _ _ _ Hload Hvalue) as [value' Hheld].
    by rewrite Hmissing in Hheld.
Qed.

End Configuration.

(** ** Instances of the further properties *)

Section Instances.

Lemma flag_set_is_flag_read_witness :
  AgentState.set_agent_active Samples.now Samples.one_snapshot "Demo" false
  = Ok (History.after Samples.one_snapshot
          (History.SetAgentActive Samples.now "Demo" false)) ∧
  AgentState.is_agent_active
    (History.after Samples.one_snapshot
       (History.SetAgentActive Samples.now "Demo" false)) "Demo"
  = Ok (JBool false).
Proof.
  assert (Hset :
    AgentState.set_agent_active Samples.now Samples.one_snapshot "Demo" false
    = Ok (History.after Samples.one_snapshot
            (History.SetAgentActive Samples.now "Demo" false))).
  { reflexivity. }
  split; [exact Hset|].
  apply (proj1 (proj1 (flag_set_is_flag_read Samples.now Samples.one_snapshot
                         "Demo" false _) Hset)).
Defined.

Lemma latest_message_is_last_of_role_witness :
  ProjectManager.get_messages
    [{| ProjectManager.project := "Demo";
        ProjectManager.message_stack_json :=
          [Samples.hello; Samples.hi_there] |}] "Demo"
  = Some ([] ++ Samples.hello :: [Samples.hi_there]) ∧
  ProjectManager.get_latest_message_from_user
    [{| ProjectManager.project := "Demo";
        ProjectManager.message_stack_json :=
          [Samples.hello; Samples.hi_there] |}] "Demo"
  = Ok (Some Samples.hello).
Proof.
  split; [reflexivity|].
  apply (proj1 (latest_message_is_last_of_role _ "Demo")
           [] Samples.hello [Samples.hi_there] (JBool false));
    [reflexivity..|].
  apply Forall_singleton. exists (JBool true). split; reflexivity.
Defined.

Lemma failed_search_keeps_last_result_witness :
  BingSearch.get_first_link
    (BingSearch.search
       (BingSearch.search BingSearch.init
          (Ok (JDict {[ "webPages" :=
                 JDict {[ "value" :=
                   JList [JDict {[ "url" := JStr "https://example.org" ]}]
                 ]} ]}))).1
       (Raise (Exception "503 Server Error"))).1
  = Ok (JStr "https://example.org").
Proof.
  destruct (proj1 (proj2 (proj2 failed_search_keeps_last_result))
              BingSearch.init
              (JDict {[ "webPages" :=
                 JDict {[ "value" :=
                   JList [JDict {[ "url" := JStr "https://example.org" ]}]
                 ]} ]})
              (JDict {[ "value" :=
                 JList [JDict {[ "url" := JStr "https://example.org" ]}] ]})
              (JDict {[ "url" := JStr "https://example.org" ]}) []
              (JStr "https://example.org")
              (lookup_singleton_eq _ _) (lookup_singleton_eq _ _)
              (lookup_singleton_eq _ _)) as (_ & _ & Hstale).
  apply Hstale.
Defined.

Lemma set_settings_replaces_sections_witness :
  Config.get_projects_dir ∅
    (Config.set_settings
       {[ "STORAGE" := JDict {[ "PROJECTS_DIR" := JStr "data/projects" ]} ]}
       {[ "STORAGE" := JDict {[ "SQLITE_DB" := JStr "data/db.sqlite" ]} ]})
  = Raise KeyError ∧
  raises
    (c' ← Config.reopened Ok
            (Config.set_settings
               {[ "STORAGE" :=
                    JDict {[ "PROJECTS_DIR" := JStr "data/projects" ]} ]}
               {[ "STORAGE" :=
                    JDict {[ "SQLITE_DB" := JStr "data/db.sqlite" ]} ]});
     Config.get_projects_dir ∅ c').
Proof.
  destruct (proj2 (proj2 (set_settings_replaces_sections
              {[ "STORAGE" :=
                   JDict {[ "PROJECTS_DIR" := JStr "data/projects" ]} ]}
              {[ "STORAGE" :=
                   JDict {[ "SQLITE_DB" := JStr "data/db.sqlite" ]} ]}))
              "PROJECTS_DIR" "STORAGE" "PROJECTS_DIR" Config.get_projects_dir
              ∅ {[ "SQLITE_DB" := JStr "data/db.sqlite" ]})
    as [Hobject Hlater].
  - unfold Config.getters. do 10 apply list_elem_of_further.
    apply list_elem_of_here.
  - apply lookup_singleton_eq.
  - apply lookup_singleton_ne. discriminate.
  - split; [exact Hobject|]. apply Hlater.
    intros c c' section key value [= <-] Hvalue. by exists value.
Defined.

End Instances.
